(** * simpleiot: client manager, point transport and graph addressing

    A shallow embedding of [client/manager.go], [client/point.go],
    [client/subject.go] and [data/edge.go].

    Go strings are byte sequences and are modelled by [string] (a list of
    8-bit characters); [[]byte] is [list byte]; [error] values are
    [option error] with [None] for [nil]; [float64] is the primitive
    [float]; [map[string]V] is [gmap string V]; a channel receive of the
    manager's event loop is an [event] handed to the loop's step function. *)

From Stdlib Require Import ZArith String Ascii List Bool Lia Floats.
From Stdlib Require Import Strings.Byte.
From stdpp Require Import gmap strings list fin_maps.

#[local] Set Warnings "-clear-no-such-hyp".

Local Open Scope list_scope.

(* ===================================================================== *)
(** * Part I: definitions *)
(* ===================================================================== *)

(** ** Go values shared by the packages *)

(** An [error] built by [errors.New]; [Error()] returns the message. *)
Inductive error : Type := errors_New (msg : string).

Definition error_Error (e : error) : string :=
  match e with errors_New msg => msg end.

(** [time.Time] as the seconds and nanoseconds elapsed since the zero
    instant (January 1, year 1, 00:00:00 UTC), which is what [IsZero]
    inspects. *)
Record Time : Type := mkTime { sec : Z; nsec : Z }.

Definition Time_IsZero (t : Time) : bool := (sec t =? 0)%Z && (nsec t =? 0)%Z.

(** [time.Second], a [time.Duration] counted in nanoseconds. *)
Definition time_Second : Z := 1000000000.

(** ** fmt.Sprintf, for the verbs the subject functions use

    [%v] prints the next operand (all operands here are strings and print
    as themselves), [%%] prints a percent sign, a [%v] without operand
    prints [%!v(MISSING)] and operands left over are reported at the end,
    as the [fmt] package does. *)

Fixpoint Sprintf_extra (args : list string) : string :=
  match args with
  | [] => ""
  | [a] => "string=" +:+ a
  | a :: rest => "string=" +:+ a +:+ ", " +:+ Sprintf_extra rest
  end.

Fixpoint Sprintf (format : string) (args : list string) : string :=
  match format with
  | EmptyString =>
      match args with
      | [] => ""
      | _ => "%!(EXTRA " +:+ Sprintf_extra args +:+ ")"
      end
  | String c rest =>
      match rest with
      | String v rest' =>
          if Ascii.eqb c "%" && Ascii.eqb v "v" then
            match args with
            | a :: args' => a +:+ Sprintf rest' args'
            | [] => "%!v(MISSING)" +:+ Sprintf rest' []
            end
          else if Ascii.eqb c "%" && Ascii.eqb v "%" then
            String "%" (Sprintf rest' args)
          else String c (Sprintf rest args)
      | EmptyString => String c (Sprintf rest args)
      end
  end.

(** ** client/subject.go *)

(** SubjectNodePoints constructs a NATS subject for node points *)
Definition SubjectNodePoints (nodeID : string) : string :=
  Sprintf "node.%v.points" [nodeID].

(** SubjectEdgePoints constructs a NATS subject for edge points *)
Definition SubjectEdgePoints (nodeID parentID : string) : string :=
  Sprintf "node.%v.%v.points" [nodeID; parentID].

(** SubjectNodeAllPoints provides subject for all points for any node *)
Definition SubjectNodeAllPoints : string := "node.*.points".

(** SubjectEdgeAllPoints provides subject for all edge points for any node *)
Definition SubjectEdgeAllPoints : string := "node.*.*.points".

(** SubjectNodeHRPoints constructs a NATS subject for high rate node points *)
Definition SubjectNodeHRPoints (nodeID : string) : string :=
  Sprintf "phr.%v" [nodeID].

(** ** package data: points, edges, nodes *)

(** Modelled from the spec: the declaration of [data.Point] is missing;
    the spec lists its fields as Type, Key, Value (numeric), Text and
    Time. *)
Record Point : Type := mkPoint {
  Point_Type : string;
  Point_Key : string;
  Point_Value : float;
  Point_Text : string;
  Point_Time : Time
}.

(** [data.Points] is [[]Point]. *)
Abbreviation Points := (list Point).

Definition Point_setTime (p : Point) (t : Time) : Point :=
  {| Point_Type := Point_Type p; Point_Key := Point_Key p;
     Point_Value := Point_Value p; Point_Text := Point_Text p;
     Point_Time := t |}.

(** Edge is used to describe the relationship between two nodes *)
Record Edge : Type := mkEdge {
  Edge_ID : string;
  Edge_Up : string;
  Edge_Down : string;
  Edge_Points : Points;
  Edge_Hash : list byte
}.

(** Modelled from the spec: the declaration of [data.NodeEdge], the node
    value the manager receives from the store, is missing; the manager
    reads its ID, the spec adds the type, the parent of the registration
    key and the points. *)
Record NodeEdge : Type := mkNodeEdge {
  NodeEdge_ID : string;
  NodeEdge_Type : string;
  NodeEdge_Parent : string;
  NodeEdge_Points : Points
}.

(** What the rest of package [data] provides to the code embedded here:
    the point-type constants, the reading of a numeric value as a
    boolean, and the wire codec of a point batch. *)
Class DataPkg : Type := {
  PointTypeTombstone : string;
  PointTypeNodeType : string;
  FloatToBool : float -> bool;
  Points_ToPb : Points -> list byte + error;
  PbDecodePoints : list byte -> Points + error
}.

(** A point of the given type and key. *)
Definition Point_matches (key typ : string) (p : Point) : bool :=
  String.eqb (Point_Type p) typ && String.eqb (Point_Key p) key.

(** Modelled from the spec: the method [Points.ValueBool] is missing.
    The spec says an edge is a tombstone iff it carries a boolean
    tombstone point set true; accordingly [ValueBool] reports, first,
    whether the points carry a point of type [typ] and key [key] whose
    value reads as true and, second, whether they carry a point of that
    type and key at all. The spec gives points no index; the third
    argument is kept because the caller passes it. *)

Definition Points_ValueBool `{DataPkg} (ps : Points) (key typ : string) (index : Z)
  : bool * bool :=
  (existsb (fun p => Point_matches key typ p && FloatToBool (Point_Value p)) ps,
   existsb (Point_matches key typ) ps).

(** IsTombstone returns true of edge points to a deleted node *)
Definition Edge_IsTombstone `{DataPkg} (e : Edge) : bool :=
  let '(tombstone, _) := Points_ValueBool (Edge_Points e) "" PointTypeTombstone 0 in
  tombstone.

(** ** client/point.go: point transport *)

(** A [nats.Msg], of which [SendPoints] reads the body. *)
Record Msg : Type := mkMsg { Msg_Data : list byte }.

(** The bus behind a [*nats.Conn]: what a request (subject, payload,
    timeout in nanoseconds) and a publish answer. A request that meets no
    responder, times out or finds the connection closed answers with an
    error. *)
Class Conn : Type := {
  nc_Request : string -> list byte -> Z -> Msg + error;
  nc_Publish : string -> list byte -> option error
}.

(** The wall clock: [time_Now k] is what the [k]-th call of [time.Now]
    returns. *)
Class Clock : Type := { time_Now : nat -> Time }.

(** A call made on the connection, with its arguments. *)
Inductive busCall : Type :=
| Requested (subject : string) (data : list byte) (timeout : Z)
| Published (subject : string) (data : list byte).

(** What a call of [SendPoints] leaves behind: the returned error, the
    caller's slice (stamped in place), the clock reading count and the
    calls made on the connection. *)
Record sendOutcome : Type := mkSendOutcome {
  send_err : option error;
  send_points : Points;
  send_tick : nat;
  send_calls : list busCall
}.

(** The loop [for i := range points] over the zero-time test; [tick]
    counts the calls of [time.Now] made so far. *)
Fixpoint stampPoints `{Clock} (tick : nat) (points : Points) : Points * nat :=
  match points with
  | [] => ([], tick)
  | p :: rest =>
      if Time_IsZero (Point_Time p) then
        let '(rest', tick') := stampPoints (S tick) rest in
        (Point_setTime p (time_Now tick) :: rest', tick')
      else
        let '(rest', tick') := stampPoints tick rest in
        (p :: rest', tick')
  end.

(** SendPoints sends points to specified subject *)
Definition SendPoints `{DataPkg} `{Conn} `{Clock}
    (tick : nat) (subject : string) (points : Points) (ack : bool) : sendOutcome :=
  let '(points, tick) := stampPoints tick points in
  match Points_ToPb points with
  | inr err => mkSendOutcome (Some err) points tick []
  | inl data =>
      let err : option error := None in
      if ack then
        match nc_Request subject data time_Second with
        | inr err => mkSendOutcome (Some err) points tick [Requested subject data time_Second]
        | inl msg =>
            if (0 <? length (Msg_Data msg))%nat then
              mkSendOutcome (Some (errors_New (string_of_list_byte (Msg_Data msg))))
                points tick [Requested subject data time_Second]
            else mkSendOutcome err points tick [Requested subject data time_Second]
        end
      else
        match nc_Publish subject data with
        | Some err => mkSendOutcome (Some err) points tick [Published subject data]
        | None => mkSendOutcome err points tick [Published subject data]
        end
  end.


(** SendEdgePoints sends points using the nats protocol *)
Definition SendEdgePoints `{DataPkg} `{Conn} `{Clock}
    (tick : nat) (nodeID parentID : string) (points : Points) (ack : bool) : sendOutcome :=
  let parentID := if String.eqb parentID "" then "none" else parentID in
  SendPoints tick (SubjectEdgePoints nodeID parentID) points ack.



(** ** client/manager.go: the manager of one node type *)

(** Modelled from the spec: the declaration of [clientState] and its
    method [stop] are missing. The manager reads its [node] and calls
    [stop] on it; the model keeps the node and the stop signals the
    instance was sent, oldest first, each with the error it carried. *)
Record clientState : Type := mkClientState {
  cs_node : NodeEdge;
  cs_stops : list (option error)
}.

Definition newClientState (n : NodeEdge) : clientState := mkClientState n [].

Definition clientState_stop (err : option error) (cs : clientState) : clientState :=
  mkClientState (cs_node cs) (cs_stops cs ++ [err]).

(** The fields of [Manager] that its methods read and write; the
    connection, the constructor and the channels appear as the classes
    and the events below. *)
Record Manager : Type := mkManager {
  root : string;
  nodeType : string;
  clientStates : gmap string clientState
}.

Definition Manager_setClientStates (m : Manager) (cs : gmap string clientState) : Manager :=
  mkManager (root m) (nodeType m) cs.

(** What the manager calls in the rest of package [client]: the store's
    answer to the [t]-th children query the manager issues (root, node
    type, includeDel, recursive), and the registration key of a node. *)
Class Store : Type := {
  GetNodeChildren : nat -> string -> string -> bool -> bool -> list NodeEdge + error;
  mapKey : NodeEdge -> string
}.

(** *** NewManager *)

(** The type argument [T] as [reflect] sees it: the name [Name()]
    returns (empty for an unnamed type: a struct literal, a pointer, a
    slice ...) and whether [T] is an interface type. *)
Record GoType : Type := mkGoType {
  GoType_Name : string;
  GoType_IsInterface : bool
}.

Inductive panic : Type :=
| PanicNilDereference   (* invalid memory address or nil pointer dereference *)
| PanicSliceBounds.     (* slice bounds out of range *)

(** [var x T; reflect.TypeOf(x)]: the zero value of an interface type is
    the nil interface, whose [TypeOf] is nil. *)
Definition reflect_TypeOf_zero (T : GoType) : option GoType :=
  if GoType_IsInterface T then None else Some T.

Definition isUpperASCII (c : ascii) : bool :=
  (65 <=? nat_of_ascii c)%nat && (nat_of_ascii c <=? 90)%nat.

Definition isASCII (c : ascii) : bool := (nat_of_ascii c <? 128)%nat.

(** U+FFFD in UTF-8. *)
Definition utf8_RuneError : string :=
  String (ascii_of_nat 239) (String (ascii_of_nat 191) (String (ascii_of_nat 189) "")).

(** [strings.ToLower] on the one-byte string [nodeType[0:1]]: an ASCII
    byte takes the ASCII path ([c += 'a' - 'A'] for an upper-case
    letter); a byte from 0x80 up is no valid UTF-8 on its own and
    [strings.Map] writes U+FFFD for it. *)
Definition strings_ToLower_byte (c : ascii) : string :=
  if isASCII c then
    String (if isUpperASCII c then ascii_of_nat (nat_of_ascii c + 32) else c) ""
  else utf8_RuneError.

(** NewManager takes constructor for a node client and returns a Manager
    for that client. The Node Type is inferred from the Go type passed
    in. *)
Definition NewManager (T : GoType) (root : string) : Manager + panic :=
  match reflect_TypeOf_zero T with
  | None => inr PanicNilDereference
  | Some rt =>
      let nodeType := GoType_Name rt in
      match nodeType with
      | EmptyString => inr PanicSliceBounds
      | String c rest =>
          let nodeType := strings_ToLower_byte c +:+ rest in
          inl (mkManager root nodeType ∅)
      end
  end.

(** *** scan *)

Definition query : Type := (string * string * bool * bool)%type.

Record scanOutcome : Type := mkScanOutcome {
  scan_m : Manager;
  scan_query : query;              (* the arguments given to GetNodeChildren *)
  scan_started : list string;      (* keys of the instance goroutines launched *)
  scan_err : option error
}.

(** The body of [for _, n := range children]: a child whose key is
    registered is left alone, any other gets a client state under its key
    and a goroutine that runs it. *)
Definition scan_create `{Store} (acc : gmap string clientState * list string) (n : NodeEdge)
  : gmap string clientState * list string :=
  let key := mapKey n in
  match acc.1 !! key with
  | Some _ => acc
  | None => (<[key := newClientState n]> acc.1, acc.2 ++ [key])
  end.

(** The body of [for key, client := range m.clientStates]: a client whose
    key was not found is told to stop, with a nil error. *)
Definition scan_remove (found : gset string) (cs : gmap string clientState)
  : gmap string clientState :=
  map_imap (fun key client =>
              Some (if decide (key ∈ found) then client
                    else clientState_stop None client)) cs.

(** [scan], issued as the [t]-th children query. The set [found] is
    filled by the first loop and read by the second only, so it is built
    here from the whole result. *)
Definition scan `{Store} (t : nat) (m : Manager) : scanOutcome :=
  let q := (root m, nodeType m, false, false) in
  match GetNodeChildren t (root m) (nodeType m) false false with
  | inr err => mkScanOutcome m q [] (Some err)
  | inl children =>
      if (Z.of_nat (length children) <? 0)%Z then mkScanOutcome m q [] None
      else
        let found : gset string := list_to_set (map mapKey children) in
        let created := fold_left scan_create children (clientStates m, []) in
        mkScanOutcome (Manager_setClientStates m (scan_remove found created.1))
                      q created.2 None
  end.

(** *** Start: the event loop *)

(** The state of a running [Start]: the manager, the locals of [Start]
    ([err], [stopping], the shutdown timer with the duration it is armed
    for), the subject of the live subscription [upSub] if any, whether
    [Start] has returned, and two records of what the manager did: the
    children queries issued and the instance goroutines launched, oldest
    first. *)
Record loop : Type := mkLoop {
  lp_m : Manager;
  lp_err : option error;
  lp_stopping : bool;
  lp_timer : option Z;
  lp_upSub : option string;
  lp_returned : bool;
  lp_queries : list query;
  lp_started : list string
}.

Definition loop_setM (l : loop) (m : Manager) : loop :=
  mkLoop m (lp_err l) (lp_stopping l) (lp_timer l) (lp_upSub l)
         (lp_returned l) (lp_queries l) (lp_started l).

Definition loop_setErr (l : loop) (err : option error) : loop :=
  mkLoop (lp_m l) err (lp_stopping l) (lp_timer l) (lp_upSub l)
         (lp_returned l) (lp_queries l) (lp_started l).

Definition loop_setTimer (l : loop) (d : option Z) : loop :=
  mkLoop (lp_m l) (lp_err l) (lp_stopping l) d (lp_upSub l)
         (lp_returned l) (lp_queries l) (lp_started l).

(** [stopping = true; m.upSub.Unsubscribe()] *)
Definition loop_setStopping (l : loop) : loop :=
  mkLoop (lp_m l) (lp_err l) true (lp_timer l) None
         (lp_returned l) (lp_queries l) (lp_started l).

(** [break done] followed by [return nil] *)
Definition loop_break (l : loop) : loop :=
  mkLoop (lp_m l) (lp_err l) (lp_stopping l) (lp_timer l) (lp_upSub l)
         true (lp_queries l) (lp_started l).

(** A call [m.scan()] made by [Start]; the store sees it as the query
    number [length (lp_queries l)]. *)
Definition loop_scan `{Store} (l : loop) : loop * option error :=
  let o := scan (length (lp_queries l)) (lp_m l) in
  (mkLoop (scan_m o) (lp_err l) (lp_stopping l) (lp_timer l) (lp_upSub l)
          (lp_returned l) (lp_queries l ++ [scan_query o])
          (lp_started l ++ scan_started o),
   scan_err o).

(** The closure [scan := func() { if stopping { return }; err := m.scan() ... }];
    its [err] is a variable of its own. *)
Definition loop_scanClosure `{Store} (l : loop) : loop :=
  if lp_stopping l then l else (loop_scan l).1.

(** What the [select] of the loop can receive. A closure received on
    [chAction] runs inside the loop; of the manager it can change the
    client states, [root] and [nodeType] being set once by [NewManager]
    (the struct lists them as initial state). *)
Inductive event : Type :=
| Recv_stop                                   (* <-m.stop *)
| Recv_chAction (f : gmap string clientState -> gmap string clientState)
                                              (* f := <-m.chAction *)
| Recv_timeAfter                              (* <-time.After(time.Minute) *)
| Recv_chScan                                 (* <-m.chScan *)
| Recv_chDeleteCS (key : string)              (* key := <-m.chDeleteCS *)
| Recv_shutdownTimer.                         (* <-shutdownTimer.C *)

(** One round of [for { select { ... } }]. *)
Definition select `{Store} (l : loop) (ev : event) : loop :=
  match ev with
  | Recv_stop =>
      let l := loop_setStopping l in
      if (0 <? size (clientStates (lp_m l)))%nat then
        let cs := clientState_stop (lp_err l) <$> clientStates (lp_m l) in
        loop_setTimer (loop_setM l (Manager_setClientStates (lp_m l) cs))
                      (Some (5 * time_Second)%Z)
      else loop_break l
  | Recv_chAction f =>
      loop_setM l (Manager_setClientStates (lp_m l) (f (clientStates (lp_m l))))
  | Recv_timeAfter => loop_scanClosure l
  | Recv_chScan => loop_scanClosure l
  | Recv_chDeleteCS key =>
      let l := loop_setM l (Manager_setClientStates (lp_m l)
                              (delete key (clientStates (lp_m l)))) in
      if lp_stopping l then
        if (size (clientStates (lp_m l)) <=? 0)%nat then loop_break l else l
      else loop_scanClosure l
  | Recv_shutdownTimer => loop_break l
  end.

(** The loop receives only while [Start] has not returned, and the
    shutdown timer delivers only when armed. *)
Definition enabled (l : loop) (ev : event) : bool :=
  negb (lp_returned l) &&
  match ev with
  | Recv_shutdownTimer => match lp_timer l with Some _ => true | None => false end
  | _ => true
  end.

(** Handing an event to the loop: [None] when the loop never receives
    it. *)
Definition deliver `{Store} (l : loop) (ev : event) : option loop :=
  if enabled l ev then Some (select l ev) else None.

Fixpoint run `{Store} (l : loop) (evs : list event) : loop :=
  match evs with
  | [] => l
  | ev :: rest =>
      match deliver l ev with
      | Some l' => run l' rest
      | None => run l rest
      end
  end.

(** Start up to the loop: the subscription ([subErr] is what
    [nc.Subscribe] returned), then the first scan, whose error is kept in
    [err]. *)
Definition Start_enter `{Store} (subErr : option error) (m : Manager) : loop + error :=
  match subErr with
  | Some err => inr err
  | None =>
      let l := mkLoop m None false None (Some "up.none.>") false [] [] in
      let '(l, err) := loop_scan l in
      inl (loop_setErr l err)
  end.

(** The subscription callback: one send on [chScan] per decoded point of
    the node-type type; each send is one receive of the loop, the channel
    being unbuffered. *)
Definition Start_onUp `{DataPkg} (msgData : list byte) : list event :=
  match PbDecodePoints msgData with
  | inr _ => []
  | inl points =>
      flat_map (fun p => if String.eqb (Point_Type p) PointTypeNodeType
                         then [Recv_chScan] else []) points
  end.

(** Stop manager: [m.stop <- struct{}{}], a send on an unbuffered channel
    that returns once the loop has received it; [None] stands for a send
    no loop ever receives. *)
Definition Manager_Stop `{Store} (err : option error) (l : loop) : option loop :=
  deliver l Recv_stop.

(** ** Concrete surroundings, for running the definitions *)

(** Modelled from the spec: the function [mapKey] is missing; the spec
    gives the registration key as the parent id with the child id,
    joined here by a dash. *)
Definition mapKey_pair (n : NodeEdge) : string :=
  NodeEdge_Parent n +:+ "-" +:+ NodeEdge_ID n.

Definition node_b1 : NodeEdge := mkNodeEdge "b1" "bus" "root" [].
Definition node_b2 : NodeEdge := mkNodeEdge "b2" "bus" "root" [].

(** A store answering every query with the given children. *)
Definition storeOf (children : nat -> list NodeEdge) : Store :=
  {| GetNodeChildren := fun t _ _ _ _ => inl (children t);
     mapKey := mapKey_pair |}.

(** A store that has [b1] at the first query and nothing afterwards. *)
Definition store_b1_then_none : Store :=
  storeOf (fun t => match t with O => [node_b1] | _ => [] end).

(** A store that always has [b1]. *)
Definition store_b1 : Store := storeOf (fun _ => [node_b1]).

(** A store that is down at the first query and has [b1] afterwards. *)
Definition store_down_then_b1 : Store :=
  {| GetNodeChildren := fun t _ _ _ _ =>
       match t with
       | O => inr (errors_New "store down")
       | _ => inl [node_b1]
       end;
     mapKey := mapKey_pair |}.


(** A package [data] to run with: a batch is encoded as one byte per
    point, and a message of [n] bytes decodes to [n] node-type points. *)
Definition pt (typ : string) (v : float) (t : Time) : Point :=
  mkPoint typ "" v "" t.

Definition data_demo : DataPkg :=
  {| PointTypeTombstone := "tombstone";
     PointTypeNodeType := "nodeType";
     FloatToBool := fun v => PrimFloat.eqb v 1%float;
     Points_ToPb := fun ps => inl (repeat x01 (length ps));
     PbDecodePoints := fun d =>
       inl (map (fun _ => pt "nodeType" 0%float (mkTime 1 0)) d) |}.

(** A bus nobody answers on: every request times out. *)
Definition conn_unreachable : Conn :=
  {| nc_Request := fun _ _ _ => inr (errors_New "nats: timeout");
     nc_Publish := fun _ _ => Some (errors_New "nats: connection closed") |}.

(** A bus whose store accepts every batch. *)
Definition conn_ok : Conn :=
  {| nc_Request := fun _ _ _ => inl (mkMsg []);
     nc_Publish := fun _ _ => None |}.

Definition clock_demo : Clock :=
  {| time_Now := fun k => mkTime (63800000000 + Z.of_nat k) 0 |}.

Definition type_Bus : GoType := mkGoType "Bus" false.
Definition type_Foo : GoType := mkGoType "Foo" false.
Definition type_Config_interface : GoType := mkGoType "Config" true.

(** A type named E-acute followed by [clair]: the name starts with the
    two bytes C3 89 of U+00C9; its lower-case form starts with C3 A9. *)
Definition name_Eclair : string :=
  String (ascii_of_nat 195) (String (ascii_of_nat 137) "clair").
Definition name_eclair : string :=
  String (ascii_of_nat 195) (String (ascii_of_nat 169) "clair").
Definition type_Eclair : GoType := mkGoType name_Eclair false.

(** ** Vocabulary of the statements *)

(** The number of zero-time points of a batch: as many readings of the
    clock as [SendPoints] takes for it. *)
Fixpoint zeroTimes (ps : Points) : nat :=
  match ps with
  | [] => 0
  | p :: rest => (if Time_IsZero (Point_Time p) then 1 else 0) + zeroTimes rest
  end.

(** The payload of a call on the connection. *)
Definition busCall_data (c : busCall) : list byte :=
  match c with Requested _ d _ => d | Published _ d => d end.

(** The number of sends on [chScan] that one message on the change
    subject causes: one per node-type point it decodes to. *)
Definition nodeTypePoints `{DataPkg} (msgData : list byte) : nat :=
  match PbDecodePoints msgData with
  | inr _ => 0
  | inl points =>
      length (List.filter (fun p => String.eqb (Point_Type p) PointTypeNodeType) points)
  end.

(** The node type [NewManager] derives, when it returns. *)
Definition NewManager_nodeType (T : GoType) (rootID : string) : option string :=
  match NewManager T rootID with
  | inl m => Some (nodeType m)
  | inr _ => None
  end.

(** The first child of a scan result with a given registration key. *)
Definition firstChild `{Store} (key : string) (children : list NodeEdge) : option NodeEdge :=
  List.find (fun n => String.eqb (mapKey n) key) children.

(** The registration keys of a scan result. *)
Definition foundKeys `{Store} (children : list NodeEdge) : gset string :=
  list_to_set (map mapKey children).

(** A manager for node type [bus] under [root], before [Start]. *)
Definition manager_bus : Manager := mkManager "root" "bus" ∅.

(** [Start] entered on [manager_bus]: the loop after the first scan, or
    the state of a [Start] that returned at once when subscribing failed. *)
Definition started `{Store} : loop :=
  match Start_enter None manager_bus with
  | inl l => l
  | inr _ => mkLoop manager_bus None false None None true [] []
  end.

(** ** Further code of the packages *)

(** *** strings.Compare and bytes.Compare

    Both compare byte by byte, the shorter operand first when it is a
    prefix of the other; the result is -1, 0 or +1. A nil slice compares
    as the empty one, and both are [[]] here. *)
Fixpoint lexCompare {A : Type} (code : A -> N) (a b : list A) : Z :=
  match a, b with
  | [], [] => 0
  | [], _ :: _ => -1
  | _ :: _, [] => 1
  | x :: a', y :: b' =>
      if (code x <? code y)%N then -1
      else if (code y <? code x)%N then 1
      else lexCompare code a' b'
  end.

Definition strings_Compare (a b : string) : Z :=
  lexCompare N_of_ascii (list_ascii_of_string a) (list_ascii_of_string b).

Definition bytes_Compare (a b : list byte) : Z := lexCompare Byte.to_N a b.

(** *** data/edge.go: the sort interfaces ByEdgeID and ByHash *)

(** [a[i]] for an [int] index; [None] is the index-out-of-range panic. *)
Definition index {A : Type} (a : list A) (i : Z) : option A :=
  if (i <? 0)%Z then None else a !! Z.to_nat i.

(** [a[i], a[j] = a[j], a[i]]: both operands are read, then [a[i]] and
    [a[j]] are assigned in this order. *)
Definition edges_Swap (a : list Edge) (i j : Z) : option (list Edge) :=
  match index a j, index a i with
  | Some aj, Some ai => Some (<[Z.to_nat j := ai]> (<[Z.to_nat i := aj]> a))
  | _, _ => None
  end.

Definition ByEdgeID_Len (a : list Edge) : Z := Z.of_nat (length a).
Definition ByEdgeID_Swap (a : list Edge) (i j : Z) : option (list Edge) := edges_Swap a i j.
Definition ByEdgeID_Less (a : list Edge) (i j : Z) : option bool :=
  match index a i, index a j with
  | Some ai, Some aj => Some (strings_Compare (Edge_ID ai) (Edge_ID aj) <? 0)%Z
  | _, _ => None
  end.

Definition ByHash_Len (a : list Edge) : Z := Z.of_nat (length a).
Definition ByHash_Swap (a : list Edge) (i j : Z) : option (list Edge) := edges_Swap a i j.
Definition ByHash_Less (a : list Edge) (i j : Z) : option bool :=
  match index a i, index a j with
  | Some ai, Some aj => Some (bytes_Compare (Edge_Hash ai) (Edge_Hash aj) <? 0)%Z
  | _, _ => None
  end.

(** *** client/point.go: subscriptions *)

(** The handler [SubscribePoints] and [SubscribeEdgePoints] install: a
    message that does not decode is logged and dropped, any other is
    handed to the callback. The callback's effect is a change of a state
    [S] of the subscriber. *)
Definition Subscribe_onMsg `{DataPkg} {S : Type}
    (callback : Points -> S -> S) (msgData : list byte) (st : S) : S :=
  match PbDecodePoints msgData with
  | inr _ => st
  | inl points => callback points st
  end.

(** What [nc.Subscribe] answers for a subject: nil, or the error that
    leaves no subscription behind. *)
Class ConnSubscribe : Type := { nc_Subscribe : string -> option error }.

(** What a call of [SubscribePoints] or [SubscribeEdgePoints] leaves
    behind: the subject and the handler handed to [nc.Subscribe],
    whether a subscription now exists ([psub] is not nil), and the error
    returned to the caller beside the [stop] function. *)
Record subscribeOutcome (S : Type) : Type := mkSubscribeOutcome {
  sub_subject : string;
  sub_handler : list byte -> S -> S;
  sub_live : bool;
  sub_err : option error
}.

Arguments mkSubscribeOutcome {S} _ _ _ _.
Arguments sub_subject {S} _.
Arguments sub_handler {S} _.
Arguments sub_live {S} _.
Arguments sub_err {S} _.

(** SubscribePoints subscripts to point updates for a node and executes a
    callback when new points arrive. *)
Definition SubscribePoints `{DataPkg} `{ConnSubscribe} {S : Type} (id : string)
    (callback : Points -> S -> S) : subscribeOutcome S :=
  let subject := SubjectNodePoints id in
  match nc_Subscribe subject with
  | None => mkSubscribeOutcome subject (Subscribe_onMsg callback) true None
  | Some err => mkSubscribeOutcome subject (Subscribe_onMsg callback) false (Some err)
  end.

(** SubscribeEdgePoints subscripts to edge point updates for a node and
    executes a callback when new points arrive. *)
Definition SubscribeEdgePoints `{DataPkg} `{ConnSubscribe} {S : Type} (id parent : string)
    (callback : Points -> S -> S) : subscribeOutcome S :=
  let subject := SubjectEdgePoints id parent in
  match nc_Subscribe subject with
  | None => mkSubscribeOutcome subject (Subscribe_onMsg callback) true None
  | Some err => mkSubscribeOutcome subject (Subscribe_onMsg callback) false (Some err)
  end.

(** The [stop] function both return, [psub.Unsubscribe()]: afterwards no
    subscription exists. *)
Definition subscribe_stop {S : Type} (o : subscribeOutcome S) : subscribeOutcome S :=
  mkSubscribeOutcome (sub_subject o) (sub_handler o) false (sub_err o).

(** ** Further vocabulary of the statements *)

(** The subject of a call on the connection. *)
Definition busCall_subject (c : busCall) : string :=
  match c with Requested s _ _ => s | Published s _ => s end.

(** The number of dots of a string: one less than the number of tokens
    of a subject. *)
Fixpoint countDots (s : string) : nat :=
  match s with
  | EmptyString => 0
  | String c rest => (if Ascii.eqb c "." then 1 else 0) + countDots rest
  end.

(** The event is a closure received on [chAction]. *)
Definition event_is_action (ev : event) : bool :=
  match ev with Recv_chAction _ => true | _ => false end.

(** A clock that never reads the zero instant. *)
Definition clock_never_zero `{Clock} : Prop :=
  ∀ k, Time_IsZero (time_Now k) = false.

(** Whether a subject has an empty token: it is empty, starts or ends
    with a dot, or has two dots in a row. *)
Fixpoint emptyToken_from (atStart : bool) (s : string) : bool :=
  match s with
  | EmptyString => atStart
  | String c rest =>
      if Ascii.eqb c "." then atStart || emptyToken_from true rest
      else emptyToken_from false rest
  end.

(** A connection that refuses to subscribe to a subject with an empty
    token and accepts any other. *)
Definition subscribe_demo : ConnSubscribe :=
  {| nc_Subscribe := fun subject =>
       if emptyToken_from true subject
       then Some (errors_New "nats: invalid subject") else None |}.

Definition edge_a : Edge := mkEdge "a" "root" "n1" [] [x01].
Definition edge_b : Edge := mkEdge "b" "root" "n2" [] [x01; x00].
Definition edge_c : Edge := mkEdge "c" "root" "n3" [] [x02].

(** [started] after the loop received a stop. *)
Definition stopped `{Store} : loop := run started [Recv_stop].

(* ===================================================================== *)
(** * Part II: properties *)
(* ===================================================================== *)

(** ** Graph addressing *)

Lemma string_app_empty_r (s : string) : s +:+ "" = s.
Proof.
  induction s as [|a s IH]; [reflexivity|].
  change (String a (s +:+ "") = String a s). by rewrite IH.
Qed.

(** C9: the subject functions build exactly [node.<n>.points],
    [node.<n>.<p>.points], [node.*.points], [node.*.*.points] and
    [phr.<n>]; [SendEdgePoints] sends on [node.<n>.none.points] when the
    parent id is empty and on [node.<n>.<p>.points] otherwise; the manager
    enters its loop subscribed to [up.none.>]. *)
Theorem subjects_exact `{DataPkg} `{Conn} `{Clock} `{Store} (n p : string) :
  SubjectNodePoints n = "node." +:+ n +:+ ".points" ∧
  SubjectEdgePoints n p = "node." +:+ n +:+ "." +:+ p +:+ ".points" ∧
  SubjectNodeAllPoints = "node.*.points" ∧
  SubjectEdgeAllPoints = "node.*.*.points" ∧
  SubjectNodeHRPoints n = "phr." +:+ n ∧
  (∀ m l0, Start_enter None m = inl l0 → lp_upSub l0 = Some "up.none.>") ∧
  (∀ tick pts ack,
     SendEdgePoints tick n "" pts ack
     = SendPoints tick ("node." +:+ n +:+ ".none.points") pts ack) ∧
  (∀ tick pts ack c p',
     SendEdgePoints tick n (String c p') pts ack
     = SendPoints tick ("node." +:+ n +:+ "." +:+ String c p' +:+ ".points") pts ack).
Proof.
  repeat split; intros; try reflexivity.
  - unfold SubjectNodeHRPoints; cbn. by rewrite string_app_empty_r.
  - unfold Start_enter in *. destruct (loop_scan _) as [l err] eqn:Hscan.
    unfold loop_scan in Hscan. by simplify_eq.
Qed.

(** ** Edges *)

Lemma Point_matches_spec (key typ : string) (p : Point) :
  Point_matches key typ p = true ↔ Point_Type p = typ ∧ Point_Key p = key.
Proof.
  unfold Point_matches. rewrite andb_true_iff, !String.eqb_eq. reflexivity.
Qed.

(** C8: an edge is a tombstone iff its points carry a point of the
    tombstone type and empty key whose value reads as true; it is not one
    iff every such point it carries (if any) reads as false. *)
Theorem IsTombstone_iff `{DataPkg} (e : Edge) :
  (Edge_IsTombstone e = true ↔
     ∃ p, In p (Edge_Points e) ∧ Point_Type p = PointTypeTombstone ∧
          Point_Key p = "" ∧ FloatToBool (Point_Value p) = true) ∧
  (Edge_IsTombstone e = false ↔
     ∀ p, In p (Edge_Points e) → Point_Type p = PointTypeTombstone →
          Point_Key p = "" → FloatToBool (Point_Value p) = false).
Proof.
  assert (Htrue : Edge_IsTombstone e = true ↔
     ∃ p, In p (Edge_Points e) ∧ Point_Type p = PointTypeTombstone ∧
          Point_Key p = "" ∧ FloatToBool (Point_Value p) = true).
  { unfold Edge_IsTombstone, Points_ValueBool. rewrite existsb_exists.
    split.
    - intros (p & Hin & Hp). apply andb_true_iff in Hp as [Hm Hv].
      apply Point_matches_spec in Hm as [Ht Hk]. eauto.
    - intros (p & Hin & Ht & Hk & Hv). exists p. split; [done|].
      apply andb_true_iff. split; [|done]. by apply Point_matches_spec. }
  split; [exact Htrue|].
  rewrite <- not_true_iff_false, Htrue. split.
  - intros Hno p Hin Ht Hk. apply not_true_iff_false. intros Hv.
    apply Hno. eauto.
  - intros Hall (p & Hin & Ht & Hk & Hv).
    rewrite (Hall p Hin Ht Hk) in Hv. discriminate.
Qed.

(** ** Point transport *)

Lemma stampPoints_tick `{Clock} (points : Points) (tick : nat) :
  (stampPoints tick points).2 = tick + zeroTimes points.
Proof.
  revert tick. induction points as [|p rest IH]; intros tick; cbn.
  - lia.
  - destruct (Time_IsZero (Point_Time p)).
    + specialize (IH (S tick)). destruct (stampPoints (S tick) rest); cbn in *. lia.
    + specialize (IH tick). destruct (stampPoints tick rest); cbn in *. lia.
Qed.

Lemma stampPoints_length `{Clock} (points : Points) (tick : nat) :
  length (stampPoints tick points).1 = length points.
Proof.
  revert tick. induction points as [|p rest IH]; intros tick; cbn; [done|].
  destruct (Time_IsZero (Point_Time p)).
  - specialize (IH (S tick)). destruct (stampPoints (S tick) rest); cbn in *. lia.
  - specialize (IH tick). destruct (stampPoints tick rest); cbn in *. lia.
Qed.

Lemma stampPoints_lookup `{Clock} (points : Points) (tick i : nat) (p : Point) :
  points !! i = Some p →
  (stampPoints tick points).1 !! i
  = Some (if Time_IsZero (Point_Time p)
          then Point_setTime p (time_Now (tick + zeroTimes (take i points)))
          else p).
Proof.
  revert tick i. induction points as [|q rest IH]; intros tick i Hi; [done|].
  destruct i as [|i]; cbn in Hi.
  - injection Hi as ->. cbn.
    destruct (Time_IsZero (Point_Time p)) eqn:Hz.
    + destruct (stampPoints (S tick) rest). cbn. by rewrite Nat.add_0_r.
    + destruct (stampPoints tick rest). reflexivity.
  - cbn. destruct (Time_IsZero (Point_Time q)) eqn:Hz.
    + specialize (IH (S tick) i Hi). destruct (stampPoints (S tick) rest). cbn in *.
      rewrite Nat.add_succ_r. exact IH.
    + specialize (IH tick i Hi). destruct (stampPoints tick rest). cbn in *.
      exact IH.
Qed.

(** The outcome of [SendPoints] by cases on what serialisation and the
    bus answer. *)
Lemma SendPoints_unfold `{DataPkg} `{Conn} `{Clock}
    (tick : nat) (subject : string) (points : Points) (ack : bool) :
  SendPoints tick subject points ack =
  let st := stampPoints tick points in
  match Points_ToPb st.1 with
  | inr err => mkSendOutcome (Some err) st.1 st.2 []
  | inl data =>
      if ack then
        match nc_Request subject data time_Second with
        | inr err => mkSendOutcome (Some err) st.1 st.2 [Requested subject data time_Second]
        | inl msg =>
            mkSendOutcome
              (match Msg_Data msg with
               | [] => None
               | _ => Some (errors_New (string_of_list_byte (Msg_Data msg)))
               end) st.1 st.2 [Requested subject data time_Second]
        end
      else mkSendOutcome (nc_Publish subject data) st.1 st.2 [Published subject data]
  end.
Proof.
  unfold SendPoints. destruct (stampPoints tick points) as [ps tk]; cbn.
  destruct (Points_ToPb ps) as [data|err]; [|done].
  destruct ack.
  - destruct (nc_Request subject data time_Second) as [msg|err]; [|done].
    by destruct (Msg_Data msg).
  - by destruct (nc_Publish subject data).
Qed.

(** C5: with [ack] set, [SendPoints] returns an error exactly when the
    stamped batch fails to serialise (that error), or the request, issued
    with a timeout of one second, fails or times out (that error), or the
    reply body is not empty (an error whose message is the body); it
    returns nil exactly when the request is answered with an empty body.
    The only call on the connection is that one request. *)
Theorem SendPoints_ack_error_iff `{DataPkg} `{Conn} `{Clock}
    (tick : nat) (subject : string) (points : Points) :
  (∀ e, send_err (SendPoints tick subject points true) = Some e ↔
     Points_ToPb (stampPoints tick points).1 = inr e ∨
     (∃ data, Points_ToPb (stampPoints tick points).1 = inl data ∧
              nc_Request subject data time_Second = inr e) ∨
     (∃ data msg, Points_ToPb (stampPoints tick points).1 = inl data ∧
                  nc_Request subject data time_Second = inl msg ∧
                  Msg_Data msg ≠ [] ∧
                  e = errors_New (string_of_list_byte (Msg_Data msg)))) ∧
  (send_err (SendPoints tick subject points true) = None ↔
     ∃ data msg, Points_ToPb (stampPoints tick points).1 = inl data ∧
                 nc_Request subject data time_Second = inl msg ∧
                 Msg_Data msg = []) ∧
  (∀ c, In c (send_calls (SendPoints tick subject points true)) →
     ∃ data, c = Requested subject data 1000000000).
Proof.
  rewrite SendPoints_unfold. cbn zeta.
  destruct (Points_ToPb (stampPoints tick points).1) as [data|err] eqn:Hpb; cbn.
  - destruct (nc_Request subject data time_Second) as [msg|err] eqn:Hreq; cbn.
    + destruct (Msg_Data msg) as [|b body] eqn:Hbody.
      * split; [|split].
        -- intros e. split; [done|].
           intros [?|[(d & Hd & Hr)|(d & m & Hd & Hr & Hne & _)]]; [done| |].
           ++ injection Hd as <-. congruence.
           ++ injection Hd as <-. rewrite Hreq in Hr. injection Hr as <-.
              by rewrite Hbody in Hne.
        -- split; [|done]. intros _. by exists data, msg.
        -- intros c [<-|[]]. by exists data.
      * split; [|split].
        -- intros e. split.
           ++ intros [= <-]. right; right. exists data, msg.
              rewrite Hbody. done.
           ++ intros [?|[(d & Hd & Hr)|(d & m & Hd & Hr & Hne & ->)]]; [done| |].
              ** injection Hd as <-. congruence.
              ** injection Hd as <-. rewrite Hreq in Hr. injection Hr as <-.
                 by rewrite Hbody.
        -- split; [done|]. intros (d & m & Hd & Hr & Hnil).
           injection Hd as <-. rewrite Hreq in Hr. injection Hr as <-.
           by rewrite Hbody in Hnil.
        -- intros c [<-|[]]. by exists data.
    + split; [|split].
      * intros e. split.
        -- intros [= <-]. right; left. by exists data.
        -- intros [?|[(d & Hd & Hr)|(d & m & Hd & Hr & _)]]; [done| |].
           ++ injection Hd as <-. congruence.
           ++ injection Hd as <-. congruence.
      * split; [done|]. intros (d & m & Hd & Hr & _).
        injection Hd as <-. congruence.
      * intros c [<-|[]]. by exists data.
  - split; [|split].
    + intros e. split.
      * intros [= <-]. by left.
      * intros [[= <-]|[(d & Hd & _)|(d & m & Hd & _)]]; done.
    + split; [done|]. intros (d & m & Hd & _). done.
    + intros c [].
Qed.

(** C6: [SendPoints] leaves in the caller's slice, and hands to
    serialisation, a batch of the same length in which every point keeps
    its type, key, value and text; the time of a zero-time point is the
    reading of the clock taken when the loop reached it (the [k]-th
    zero-time point gets the [k]-th reading of the call) and the time of
    every other point is unchanged. When that batch serialises, its
    bytes are what the one call on the connection carries; when it does
    not, nothing is sent. *)
Theorem SendPoints_stamps_zero_times `{DataPkg} `{Conn} `{Clock}
    (tick : nat) (subject : string) (points : Points) (ack : bool) :
  length (send_points (SendPoints tick subject points ack)) = length points ∧
  (∀ i p, points !! i = Some p →
     ∃ q, send_points (SendPoints tick subject points ack) !! i = Some q ∧
          Point_Type q = Point_Type p ∧ Point_Key q = Point_Key p ∧
          Point_Value q = Point_Value p ∧ Point_Text q = Point_Text p ∧
          Point_Time q = (if Time_IsZero (Point_Time p)
                          then time_Now (tick + zeroTimes (take i points))
                          else Point_Time p)) ∧
  send_tick (SendPoints tick subject points ack) = tick + zeroTimes points ∧
  (∀ data, Points_ToPb (send_points (SendPoints tick subject points ack)) = inl data →
     send_calls (SendPoints tick subject points ack)
     = [if ack then Requested subject data 1000000000 else Published subject data]) ∧
  (∀ e, Points_ToPb (send_points (SendPoints tick subject points ack)) = inr e →
     send_calls (SendPoints tick subject points ack) = [] ∧
     send_err (SendPoints tick subject points ack) = Some e).
Proof.
  assert (Hpts : send_points (SendPoints tick subject points ack)
                 = (stampPoints tick points).1).
  { rewrite SendPoints_unfold; cbn zeta.
    destruct (Points_ToPb _); [|done]. destruct ack; [|done].
    by destruct (nc_Request _ _ _). }
  assert (Htk : send_tick (SendPoints tick subject points ack)
                = (stampPoints tick points).2).
  { rewrite SendPoints_unfold; cbn zeta.
    destruct (Points_ToPb _); [|done]. destruct ack; [|done].
    by destruct (nc_Request _ _ _). }
  rewrite Hpts, Htk. split; [apply stampPoints_length|]. split; [|split; [|split]].
  - intros i p Hi. rewrite (stampPoints_lookup points tick i p Hi).
    destruct (Time_IsZero (Point_Time p)); eexists; (split; [reflexivity|]); done.
  - apply stampPoints_tick.
  - intros data Hpb. rewrite SendPoints_unfold; cbn zeta. rewrite Hpb.
    destruct ack; [|done]. by destruct (nc_Request _ _ _).
  - intros e Hpb. rewrite SendPoints_unfold; cbn zeta. by rewrite Hpb.
Qed.

(** ** The manager: scan *)

Section scan_facts.
Context `{Store}.

Lemma firstChild_is_Some (key : string) (children : list NodeEdge) :
  is_Some (firstChild key children) ↔ key ∈ foundKeys children.
Proof.
  unfold firstChild, foundKeys.
  induction children as [|n rest IH]; cbn.
  - split; [by intros [? ?]|]. by intros ?%not_elem_of_empty.
  - rewrite elem_of_union, elem_of_singleton.
    destruct (String.eqb (mapKey n) key) eqn:Hk.
    + apply String.eqb_eq in Hk. split; eauto.
    + apply String.eqb_neq in Hk. rewrite IH. naive_solver.
Qed.

Lemma scan_create_lookup (children : list NodeEdge)
    (acc : gmap string clientState * list string) (key : string) :
  (fold_left scan_create children acc).1 !! key
  = match acc.1 !! key with
    | Some c => Some c
    | None => newClientState <$> firstChild key children
    end.
Proof.
  revert acc. induction children as [|n rest IH]; intros acc; cbn.
  - by destruct (acc.1 !! key).
  - rewrite IH. unfold scan_create, firstChild; cbn.
    destruct (acc.1 !! mapKey n) as [c|] eqn:Hn.
    + destruct (acc.1 !! key) as [c'|] eqn:Hkey; [done|].
      destruct (String.eqb (mapKey n) key) eqn:Hk; [|done].
      apply String.eqb_eq in Hk. congruence.
    + cbn. destruct (String.eqb (mapKey n) key) eqn:Hk.
      * apply String.eqb_eq in Hk. subst key.
        by rewrite lookup_insert_eq, Hn.
      * apply String.eqb_neq in Hk. by rewrite lookup_insert_ne.
Qed.

Lemma scan_remove_lookup (found : gset string) (cs : gmap string clientState)
    (key : string) :
  scan_remove found cs !! key
  = (λ c, if decide (key ∈ found) then c else clientState_stop None c) <$> cs !! key.
Proof.
  unfold scan_remove. rewrite map_lookup_imap. by destruct (cs !! key).
Qed.

(** A scan whose query succeeded, by what it leaves under each key. *)
Lemma scan_lookup (t : nat) (m : Manager) (children : list NodeEdge) (key : string) :
  GetNodeChildren t (root m) (nodeType m) false false = inl children →
  clientStates (scan_m (scan t m)) !! key
  = match clientStates m !! key with
    | Some c => Some (if decide (key ∈ foundKeys children) then c
                      else clientState_stop None c)
    | None => newClientState <$> firstChild key children
    end.
Proof.
  intros Hq. unfold scan. rewrite Hq.
  destruct (Z.ltb_spec (Z.of_nat (length children)) 0) as [Hneg|_]; [lia|].
  cbn. rewrite scan_remove_lookup, scan_create_lookup. cbn.
  destruct (clientStates m !! key) as [c|]; [done|].
  destruct (firstChild key children) as [n|] eqn:Hf; [|done]. cbn.
  rewrite decide_True; [done|].
  apply firstChild_is_Some. by rewrite Hf.
Qed.

(** A scan whose query failed changes nothing and returns the error. *)
Lemma scan_query_failed (t : nat) (m : Manager) (err : error) :
  GetNodeChildren t (root m) (nodeType m) false false = inr err →
  scan_m (scan t m) = m ∧ scan_err (scan t m) = Some err.
Proof. intros Hq. unfold scan. by rewrite Hq. Qed.

(** A scan reads [root] and [nodeType] and never writes them. *)
Lemma scan_root_nodeType (t : nat) (m : Manager) :
  root (scan_m (scan t m)) = root m ∧
  nodeType (scan_m (scan t m)) = nodeType m ∧
  scan_query (scan t m) = (root m, nodeType m, false, false).
Proof.
  unfold scan. destruct (GetNodeChildren _ _ _ _ _); [|done].
  by destruct (Z.of_nat _ <? 0)%Z.
Qed.

(** The keys a successful scan leaves registered. *)
Lemma scan_dom (t : nat) (m : Manager) (children : list NodeEdge) :
  GetNodeChildren t (root m) (nodeType m) false false = inl children →
  dom (clientStates (scan_m (scan t m))) = dom (clientStates m) ∪ foundKeys children.
Proof.
  intros Hq. apply set_eq. intros key.
  rewrite elem_of_union, !elem_of_dom, (scan_lookup t m children key Hq).
  rewrite <- firstChild_is_Some.
  destruct (clientStates m !! key) as [c|]; cbn.
  - split; eauto.
  - rewrite fmap_is_Some. split; [eauto|]. by intros [[? [=]]|?].
Qed.

End scan_facts.

(** ** The manager: the event loop *)

Section loop_facts.
Context `{Store}.

Lemma loop_scan_queries (l : loop) :
  lp_queries (loop_scan l).1
  = lp_queries l ++ [(root (lp_m l), nodeType (lp_m l), false, false)].
Proof.
  unfold loop_scan; cbn.
  by destruct (scan_root_nodeType (length (lp_queries l)) (lp_m l)) as (_ & _ & ->).
Qed.

Lemma loop_scan_keeps (l : loop) :
  root (lp_m (loop_scan l).1) = root (lp_m l) ∧
  nodeType (lp_m (loop_scan l).1) = nodeType (lp_m l) ∧
  lp_stopping (loop_scan l).1 = lp_stopping l ∧
  lp_returned (loop_scan l).1 = lp_returned l.
Proof.
  unfold loop_scan; cbn.
  destruct (scan_root_nodeType (length (lp_queries l)) (lp_m l)) as (-> & -> & _).
  done.
Qed.

(** A round of the loop issues no query or one, for the manager's own
    root and node type, non-recursive and without deleted nodes. *)
Lemma select_queries (l : loop) (ev : event) :
  lp_queries (select l ev) = lp_queries l ∨
  lp_queries (select l ev)
  = lp_queries l ++ [(root (lp_m l), nodeType (lp_m l), false, false)].
Proof.
  destruct ev; unfold select, loop_scanClosure.
  - case_match; by left.
  - by left.
  - case_match; [by left|right; apply loop_scan_queries].
  - case_match; [by left|right; apply loop_scan_queries].
  - case_match.
    + case_match; by left.
    + right. etrans; [apply loop_scan_queries|done].
  - by left.
Qed.

Lemma select_root_nodeType (l : loop) (ev : event) :
  root (lp_m (select l ev)) = root (lp_m l) ∧
  nodeType (lp_m (select l ev)) = nodeType (lp_m l).
Proof.
  destruct ev; unfold select, loop_scanClosure.
  - by case_match.
  - done.
  - case_match; [done|]. by destruct (loop_scan_keeps l) as (? & ? & _).
  - case_match; [done|]. by destruct (loop_scan_keeps l) as (? & ? & _).
  - case_match.
    + by case_match.
    + by destruct (loop_scan_keeps (loop_setM l
           (Manager_setClientStates (lp_m l) (delete key (clientStates (lp_m l))))))
        as (? & ? & _).
  - done.
Qed.

(** Every query of a run is for the root and node type the manager was
    built with. *)
Lemma run_queries (q : query) (evs : list event) (l : loop) :
  (root (lp_m l), nodeType (lp_m l), false, false) = q →
  Forall (λ q', q' = q) (lp_queries l) →
  Forall (λ q', q' = q) (lp_queries (run l evs)).
Proof.
  revert l. induction evs as [|ev rest IH]; intros l Hq Hall; [done|].
  cbn. unfold deliver. destruct (enabled l ev); [|by apply IH].
  apply IH.
  - by destruct (select_root_nodeType l ev) as [-> ->].
  - destruct (select_queries l ev) as [->| ->]; [done|].
    apply Forall_app. split; [done|]. by constructor.
Qed.

(** A notification received by a loop that is not stopping runs one
    scan and leaves the loop running and not stopping. *)
Lemma chScan_round (l : loop) :
  lp_returned l = false → lp_stopping l = false →
  ∃ l', deliver l Recv_chScan = Some l' ∧
        lp_returned l' = false ∧ lp_stopping l' = false ∧
        root (lp_m l') = root (lp_m l) ∧ nodeType (lp_m l') = nodeType (lp_m l) ∧
        lp_queries l'
        = lp_queries l ++ [(root (lp_m l), nodeType (lp_m l), false, false)].
Proof.
  intros Hret Hstop. unfold deliver, enabled. rewrite Hret. cbn.
  unfold loop_scanClosure. rewrite Hstop.
  exists (loop_scan l).1. destruct (loop_scan_keeps l) as (? & ? & ? & ?).
  rewrite loop_scan_queries. repeat split; congruence.
Qed.

Lemma run_chScan (n : nat) (l : loop) :
  lp_returned l = false → lp_stopping l = false →
  lp_queries (run l (repeat Recv_chScan n))
  = lp_queries l ++ repeat (root (lp_m l), nodeType (lp_m l), false, false) n.
Proof.
  revert l. induction n as [|n IH]; intros l Hret Hstop; cbn.
  - by rewrite app_nil_r.
  - destruct (chScan_round l Hret Hstop) as (l' & -> & Hret' & Hstop' & Hr & Ht & Hq).
    rewrite (IH l' Hret' Hstop'), Hq, Hr, Ht, <- app_assoc. done.
Qed.


End loop_facts.

Lemma Start_onUp_sends `{DataPkg} (msgData : list byte) :
  Start_onUp msgData = repeat Recv_chScan (nodeTypePoints msgData).
Proof.
  unfold Start_onUp, nodeTypePoints.
  destruct (PbDecodePoints msgData) as [points|err]; [|done].
  induction points as [|p rest IH]; [done|]. cbn.
  destruct (String.eqb (Point_Type p) PointTypeNodeType); cbn; by rewrite IH.
Qed.

Lemma Start_onUp_burst `{DataPkg} (msgs : list (list byte)) :
  flat_map Start_onUp msgs = repeat Recv_chScan (sum_list (nodeTypePoints <$> msgs)).
Proof.
  induction msgs as [|msg rest IH]; [done|]. cbn.
  by rewrite IH, Start_onUp_sends, repeat_app.
Qed.

(** C2, as the code has it: a round of the event loop runs no scan or
    one scan, to its end, so scans never overlap; and a loop that is
    running and not stopping answers every send on [chScan] (one per
    node-type point of every message on the change subject) with a scan
    of its own: [n] notifications cause [n] scans, not one. *)
Theorem notifications_scan_one_each `{Store} `{DataPkg}
    (l : loop) (msgs : list (list byte)) :
  lp_returned l = false → lp_stopping l = false →
  flat_map Start_onUp msgs = repeat Recv_chScan (sum_list (nodeTypePoints <$> msgs)) ∧
  lp_queries (run l (flat_map Start_onUp msgs))
  = lp_queries l ++ repeat (root (lp_m l), nodeType (lp_m l), false, false)
                           (sum_list (nodeTypePoints <$> msgs)) ∧
  (∀ l' ev, lp_queries (select l' ev) = lp_queries l' ∨
            ∃ q, lp_queries (select l' ev) = lp_queries l' ++ [q]).
Proof.
  intros Hret Hstop. split; [apply Start_onUp_burst|]. split.
  - rewrite Start_onUp_burst. by apply run_chScan.
  - intros l' ev. destruct (select_queries l' ev) as [?|?]; eauto.
Qed.

Lemma notifications_scan_one_each_witness :
  lp_returned (@started store_b1) = false ∧
  lp_stopping (@started store_b1) = false ∧
  lp_queries (@run store_b1 (@started store_b1)
                   (flat_map (@Start_onUp data_demo) [[x01; x01]]))
  = lp_queries (@started store_b1) ++ repeat ("root", "bus", false, false) 2.
Proof.
  split; [reflexivity|]. split; [reflexivity|].
  exact (proj1 (proj2 (@notifications_scan_one_each store_b1 data_demo
                         (@started store_b1) [[x01; x01]] eq_refl eq_refl))).
Defined.

(** Two change notifications in one message, received by a running loop:
    two scans follow, where the claim has them collapse into one. *)
Lemma two_notifications_two_scans :
  length (@Start_onUp data_demo [x01; x01]) = 2 ∧
  length (lp_queries (@run store_b1 (@started store_b1) (@Start_onUp data_demo [x01; x01])))
  = length (lp_queries (@started store_b1)) + 2.
Proof. split; reflexivity. Qed.




(** C4, at a manager supervising [b1] whose first scan succeeded:
    [Stop] called with the error [boom] sends [b1] a stop signal that
    carries nil, the [err] left in [Start] by the first scan. At a
    manager whose first scan failed and whose second found [b1]: [Stop]
    called with nil sends [b1] the error of that first scan. The error
    given to [Stop] reaches nobody: [Stop] with any other argument leaves
    the same loop. *)
Theorem Stop_error_not_forwarded :
  (∃ l1, @Manager_Stop store_b1 (Some (errors_New "boom")) (@started store_b1) = Some l1 ∧
         clientStates (lp_m l1) !! "root-b1" = Some (mkClientState node_b1 [None])) ∧
  (∃ l1, @Manager_Stop store_down_then_b1 None
           (@run store_down_then_b1 (@started store_down_then_b1) [Recv_chScan]) = Some l1 ∧
         clientStates (lp_m l1) !! "root-b1"
         = Some (mkClientState node_b1 [Some (errors_New "store down")])) ∧
  (∀ (S : Store) (e e' : option error) (l : loop),
     @Manager_Stop S e l = @Manager_Stop S e' l).
Proof.
  split; [|split; [|reflexivity]]; eexists; split; reflexivity.
Qed.

(** ** NewManager *)

Lemma NewManager_cases (T : GoType) (rootID : string) :
  NewManager T rootID
  = if GoType_IsInterface T then inr PanicNilDereference
    else match GoType_Name T with
         | EmptyString => inr PanicSliceBounds
         | String c rest => inl (mkManager rootID (strings_ToLower_byte c +:+ rest) ∅)
         end.
Proof.
  unfold NewManager, reflect_TypeOf_zero. by destruct (GoType_IsInterface T).
Qed.

(** [Start], once subscribed, has run one scan when it enters the loop. *)
Lemma Start_enter_first_scan `{Store} (m : Manager) (l0 : loop) :
  Start_enter None m = inl l0 →
  root (lp_m l0) = root m ∧ nodeType (lp_m l0) = nodeType m ∧
  lp_queries l0 = [(root m, nodeType m, false, false)].
Proof.
  unfold Start_enter.
  set (l := mkLoop m None false None (Some "up.none.>") false [] []).
  pose proof (loop_scan_queries l) as Hq.
  pose proof (loop_scan_keeps l) as (Hr & Ht & _).
  destruct (loop_scan l) as [l' err]. intros [= <-]. cbn in *. done.
Qed.

(** C7, as the code has it: for a type that is not an interface and
    whose name starts with an ASCII byte, [NewManager] returns a manager
    whose node type is the name with that byte lower-cased (an upper-case
    letter moved by 32, any other byte kept) and the rest unchanged; and
    every children query of [Start], the first scan and all that follow
    whatever the loop receives, asks for that node type under the root. *)
Theorem NewManager_nodeType_lower_first `{Store}
    (T : GoType) (rootID : string) (c : ascii) (rest : string) :
  GoType_IsInterface T = false →
  GoType_Name T = String c rest →
  isASCII c = true →
  ∃ m, NewManager T rootID = inl m ∧
       nodeType m
       = String (if isUpperASCII c then ascii_of_nat (nat_of_ascii c + 32) else c) rest ∧
       ∀ l0 evs, Start_enter None m = inl l0 →
                 lp_queries l0 = [(rootID, nodeType m, false, false)] ∧
                 Forall (λ q, q = (rootID, nodeType m, false, false))
                        (lp_queries (run l0 evs)).
Proof.
  intros Hif Hname Hascii. rewrite NewManager_cases, Hif, Hname.
  eexists. split; [reflexivity|]. split.
  { cbn. unfold strings_ToLower_byte. by rewrite Hascii. }
  intros l0 evs Hstart.
  destruct (Start_enter_first_scan _ l0 Hstart) as (Hr & Ht & Hq). cbn in Hr, Ht, Hq.
  split; [exact Hq|].
  apply run_queries; [by rewrite Hr, Ht|].
  rewrite Hq. by repeat constructor.
Qed.

Lemma NewManager_nodeType_lower_first_witness :
  GoType_IsInterface type_Foo = false ∧
  GoType_Name type_Foo = "Foo" ∧
  isASCII "F" = true ∧
  ∃ m, NewManager type_Foo "root" = inl m ∧
       nodeType m = "foo" ∧
       ∀ l0 evs, @Start_enter store_b1 None m = inl l0 →
                 lp_queries l0 = [("root", nodeType m, false, false)] ∧
                 Forall (λ q, q = ("root", nodeType m, false, false))
                        (lp_queries (@run store_b1 l0 evs)).
Proof.
  split; [reflexivity|]. split; [reflexivity|]. split; [reflexivity|].
  exact (@NewManager_nodeType_lower_first store_b1 type_Foo "root" "F" "oo"
           eq_refl eq_refl eq_refl).
Defined.

(** A type named with a non-ASCII capital first (E-acute, then [clair]):
    the node type derived is not the name with its first letter in lower
    case. A named interface type: [NewManager] derives nothing. *)
Lemma NewManager_nodeType_not_every_type :
  NewManager_nodeType type_Eclair "root" ≠ Some name_eclair ∧
  GoType_Name type_Config_interface = "Config" ∧
  NewManager_nodeType type_Config_interface "root" = None.
Proof. split; [discriminate|]. split; reflexivity. Qed.

(** C10, as the code has it: [NewManager] panics exactly when the type
    argument is an interface type (on [Name] of the nil [reflect.Type])
    or has the empty name (on the slice of its first byte), and returns
    a manager for every other type. *)
Theorem NewManager_panics_iff (T : GoType) (rootID : string) :
  (NewManager T rootID = inr PanicSliceBounds
   ↔ GoType_IsInterface T = false ∧ GoType_Name T = "") ∧
  (NewManager T rootID = inr PanicNilDereference
   ↔ GoType_IsInterface T = true) ∧
  ((∃ m, NewManager T rootID = inl m)
   ↔ GoType_IsInterface T = false ∧ GoType_Name T ≠ "").
Proof.
  rewrite NewManager_cases.
  destruct (GoType_IsInterface T); [|destruct (GoType_Name T) as [|c rest]].
  - repeat split; try done; naive_solver.
  - repeat split; try done; naive_solver.
  - repeat split; try done; naive_solver.
Qed.

(** A named interface type: the name is not empty and [NewManager]
    panics. *)
Lemma NewManager_panics_on_named_interface :
  GoType_Name type_Config_interface = "Config" ∧
  NewManager type_Config_interface "root" = inr PanicNilDereference.
Proof. split; reflexivity. Qed.

(** ** The registered keys after a scan: instances *)

(** The store had [b1] at the first scan and has no child at the second:
    after the second scan the key of [b1] is still registered, while the
    scan result has no key. *)
Lemma scan_keeps_removed_key :
  @GetNodeChildren store_b1_then_none 1 "root" "bus" false false = inl [] ∧
  "root-b1" ∈ dom (clientStates
                     (scan_m (@scan store_b1_then_none 1
                                (lp_m (@started store_b1_then_none))))) ∧
  dom (clientStates
         (scan_m (@scan store_b1_then_none 1 (lp_m (@started store_b1_then_none)))))
  ≠ @foundKeys store_b1_then_none [].
Proof.
  assert (Hin : "root-b1" ∈ dom (clientStates
                     (scan_m (@scan store_b1_then_none 1
                                (lp_m (@started store_b1_then_none)))))).
  { apply elem_of_dom. eexists. reflexivity. }
  split; [reflexivity|]. split; [exact Hin|].
  intros Heq. rewrite Heq in Hin. by apply not_elem_of_empty in Hin.
Qed.

(** ** Deregistration and the scenarios of the specification *)

(** The completion of an instance, received by a loop that is not
    stopping: its key is deleted and a scan follows at once, so the key
    stays away exactly when the store no longer returns its child. *)
Lemma chDeleteCS_deregisters `{Store} (l : loop) (key : string) (children : list NodeEdge) :
  lp_stopping l = false →
  GetNodeChildren (length (lp_queries l)) (root (lp_m l)) (nodeType (lp_m l)) false false
  = inl children →
  dom (clientStates (lp_m (select l (Recv_chDeleteCS key))))
  = (dom (clientStates (lp_m l)) ∖ {[key]}) ∪ foundKeys children.
Proof.
  intros Hstop Hq. unfold select, loop_scanClosure. cbn. rewrite Hstop. cbn.
  set (m := Manager_setClientStates (lp_m l) (delete key (clientStates (lp_m l)))).
  rewrite (scan_dom (length (lp_queries l)) m children Hq).
  cbn. by rewrite dom_delete_L.
Qed.

(** The manager for node type [bus] whose store returns [b1]: one
    instance, registered under the key of (root, b1) and launched once.
    When the next scan no longer returns [b1] the instance is sent a stop
    signal, and its completion removes the key. *)
Example scenario_bus_b1 :
  map_to_list (clientStates (lp_m (@started store_b1_then_none)))
  = [("root-b1", newClientState node_b1)] ∧
  lp_started (@started store_b1_then_none) = ["root-b1"] ∧
  map_to_list (clientStates (lp_m (@run store_b1_then_none (@started store_b1_then_none)
                                     [Recv_chScan])))
  = [("root-b1", mkClientState node_b1 [None])] ∧
  clientStates (lp_m (@run store_b1_then_none (@started store_b1_then_none)
                        [Recv_chScan; Recv_chDeleteCS "root-b1"])) = ∅.
Proof. repeat split; reflexivity. Qed.

(** An acknowledged send of one zero-time point of type [value] on a bus
    nobody answers on: the point is stamped, one request bounded by one
    second is made, and its timeout error is returned. *)
Example scenario_unreachable_bus :
  @SendPoints data_demo conn_unreachable clock_demo 0 "node.n1.points"
    [pt "value" 0x1.91eb851eb851fp+1%float (mkTime 0 0)] true
  = mkSendOutcome (Some (errors_New "nats: timeout"))
      [pt "value" 0x1.91eb851eb851fp+1%float (mkTime 63800000000 0)] 1
      [Requested "node.n1.points" [x01] 1000000000].
Proof. reflexivity. Qed.

(** A tombstone point set true makes the edge a tombstone; set false, or
    absent, it does not. *)
Example scenario_tombstone :
  @Edge_IsTombstone data_demo
    (mkEdge "e1" "root" "b1" [pt "tombstone" 1%float (mkTime 1 0)] []) = true ∧
  @Edge_IsTombstone data_demo
    (mkEdge "e1" "root" "b1" [pt "tombstone" 0%float (mkTime 1 0)] []) = false ∧
  @Edge_IsTombstone data_demo (mkEdge "e1" "root" "b1" [] []) = false.
Proof. repeat split; reflexivity. Qed.

(* ===================================================================== *)
(** * Part III: further properties of the code *)
(* ===================================================================== *)

(** ** Lexicographic comparison *)

Section lex_facts.
Context {A : Type} (code : A → N) (code_inj : ∀ x y, code x = code y → x = y).

Lemma lexCompare_range (a b : list A) :
  lexCompare code a b = (-1)%Z ∨ lexCompare code a b = 0%Z ∨ lexCompare code a b = 1%Z.
Proof.
  revert b. induction a as [|x a IH]; intros [|y b]; cbn; auto.
  destruct (code x <? code y)%N; [auto|]. destruct (code y <? code x)%N; auto.
Qed.

Lemma lexCompare_eq (a b : list A) : lexCompare code a b = 0%Z ↔ a = b.
Proof using code_inj.
  revert b. induction a as [|x a IH]; intros [|y b]; cbn; try done.
  destruct (N.ltb_spec (code x) (code y)) as [Hxy|Hxy].
  { split; [done|]. intros [= -> _]. lia. }
  destruct (N.ltb_spec (code y) (code x)) as [Hyx|Hyx].
  { split; [done|]. intros [= -> _]. lia. }
  rewrite IH. split.
  - intros ->. f_equal. apply code_inj. lia.
  - by intros [= _ ->].
Qed.

Lemma lexCompare_flip (a b : list A) :
  lexCompare code a b = (-1)%Z ↔ lexCompare code b a = 1%Z.
Proof.
  revert b. induction a as [|x a IH]; intros [|y b]; cbn; try done.
  destruct (N.ltb_spec (code x) (code y)) as [Hxy|Hxy];
    destruct (N.ltb_spec (code y) (code x)) as [Hyx|Hyx];
    try done; try lia; try apply IH.
Qed.

Lemma lexCompare_trans (a b c : list A) :
  lexCompare code a b = (-1)%Z → lexCompare code b c = (-1)%Z →
  lexCompare code a c = (-1)%Z.
Proof.
  revert b c. induction a as [|x a IH]; intros [|y b] [|z c]; cbn; try done.
  destruct (N.ltb_spec (code x) (code y)) as [Hxy|Hxy];
    destruct (N.ltb_spec (code y) (code z)) as [Hyz|Hyz];
    destruct (N.ltb_spec (code y) (code x)) as [Hyx|Hyx];
    destruct (N.ltb_spec (code z) (code y)) as [Hzy|Hzy];
    destruct (N.ltb_spec (code x) (code z)) as [Hxz|Hxz];
    destruct (N.ltb_spec (code z) (code x)) as [Hzx|Hzx];
    try done; try lia; eauto.
Qed.

(** The order [Compare(x, y) < 0] is a strict total order. *)
Lemma lexCompare_lt_strict (a b c : list A) :
  (lexCompare code a a <? 0)%Z = false ∧
  ((lexCompare code a b <? 0)%Z = true → (lexCompare code b c <? 0)%Z = true →
   (lexCompare code a c <? 0)%Z = true) ∧
  ((lexCompare code a b <? 0)%Z = false ∧ (lexCompare code b a <? 0)%Z = false ↔ a = b).
Proof using code_inj.
  assert (Hlt : ∀ u v, (lexCompare code u v <? 0)%Z = true ↔ lexCompare code u v = (-1)%Z).
  { intros u v. rewrite Z.ltb_lt. destruct (lexCompare_range u v) as [->|[-> | ->]]; lia. }
  split; [|split].
  - assert (lexCompare code a a = 0%Z) as -> by by apply lexCompare_eq. done.
  - rewrite !Hlt. apply lexCompare_trans.
  - rewrite <- !not_true_iff_false, !Hlt, <- lexCompare_eq.
    rewrite (lexCompare_flip b a).
    destruct (lexCompare_range a b) as [->|[-> | ->]]; split; try done; try lia.
Qed.

End lex_facts.

Lemma index_Some {A : Type} (a : list A) (i : Z) :
  is_Some (index a i) ↔ (0 ≤ i < Z.of_nat (length a))%Z.
Proof.
  unfold index. destruct (Z.ltb_spec i 0) as [Hneg|Hpos].
  - split; [by intros [? ?]|lia].
  - rewrite lookup_lt_is_Some. lia.
Qed.

Lemma index_None {A : Type} (a : list A) (i : Z) :
  index a i = None ↔ ¬ (0 ≤ i < Z.of_nat (length a))%Z.
Proof. rewrite <- index_Some, eq_None_not_Some. done. Qed.

Lemma list_ascii_of_string_inj (s t : string) :
  list_ascii_of_string s = list_ascii_of_string t → s = t.
Proof.
  intros Heq. rewrite <- (string_of_list_ascii_of_string s),
    <- (string_of_list_ascii_of_string t). by rewrite Heq.
Qed.

Lemma N_of_ascii_inj (x y : ascii) : N_of_ascii x = N_of_ascii y → x = y.
Proof.
  intros Heq. rewrite <- (ascii_N_embedding x), <- (ascii_N_embedding y).
  by rewrite Heq.
Qed.

Lemma Byte_to_N_inj (x y : byte) : Byte.to_N x = Byte.to_N y → x = y.
Proof.
  intros Heq. pose proof (Byte.of_to_N x) as Hx. pose proof (Byte.of_to_N y) as Hy.
  rewrite Heq in Hx. congruence.
Qed.

(** ** Edges: the sort interfaces *)

Section less_facts.
Context {K : Type} (lt : K → K → bool) (key : Edge → K).
Context (lt_irrefl : ∀ x, lt x x = false).
Context (lt_trans : ∀ x y z, lt x y = true → lt y z = true → lt x z = true).
Context (lt_unordered : ∀ x y, lt x y = false ∧ lt y x = false ↔ x = y).

(** A [Less] that compares the keys of two elements by a strict total
    order. *)
Lemma keyed_Less_strict_order (a : list Edge) (i j k : Z) :
  let less i j := match index a i, index a j with
                  | Some x, Some y => Some (lt (key x) (key y))
                  | _, _ => None
                  end in
  (less i j = None
   ↔ ¬ (0 ≤ i < Z.of_nat (length a))%Z ∨ ¬ (0 ≤ j < Z.of_nat (length a))%Z) ∧
  less i i ≠ Some true ∧
  (less i j = Some true → less j k = Some true → less i k = Some true) ∧
  (less i j = Some false ∧ less j i = Some false
   ↔ ∃ x y, index a i = Some x ∧ index a j = Some y ∧ key x = key y).
Proof using lt_irrefl lt_trans lt_unordered.
  cbn zeta. rewrite <- !index_None.
  split; [|split; [|split]].
  - destruct (index a i), (index a j); split; try done; eauto; by intros [?|?].
  - destruct (index a i); [|done]. by rewrite lt_irrefl.
  - destruct (index a i) as [x|]; [|done]. destruct (index a j) as [y|]; [|done].
    destruct (index a k) as [z|]; [|done].
    intros [= H1] [= H2]. by rewrite (lt_trans _ _ _ H1 H2).
  - destruct (index a i) as [x|];
      [|split; [by intros [? _]|by intros (? & ? & ? & _)]].
    destruct (index a j) as [y|];
      [|split; [by intros [? _]|by intros (? & ? & _ & ? & _)]].
    split.
    + intros [[= H1] [= H2]]. exists x, y. by rewrite <- lt_unordered.
    + intros (x' & y' & [= <-] & [= <-] & Hk).
      apply lt_unordered in Hk as [-> ->]. done.
Qed.

End less_facts.

Lemma strings_Compare_lt_strict (a b c : string) :
  (strings_Compare a a <? 0)%Z = false ∧
  ((strings_Compare a b <? 0)%Z = true → (strings_Compare b c <? 0)%Z = true →
   (strings_Compare a c <? 0)%Z = true) ∧
  ((strings_Compare a b <? 0)%Z = false ∧ (strings_Compare b a <? 0)%Z = false ↔ a = b).
Proof.
  unfold strings_Compare.
  destruct (lexCompare_lt_strict N_of_ascii N_of_ascii_inj
              (list_ascii_of_string a) (list_ascii_of_string b)
              (list_ascii_of_string c)) as (Hirr & Htr & Heq).
  split; [done|]. split; [done|]. rewrite Heq. split; [|by intros ->].
  apply list_ascii_of_string_inj.
Qed.

(** X1: ByEdgeID.Less panics exactly when an index is out of range, and on
    indices in range it is a strict order of the edges by ID: no edge is
    less than itself, the order is transitive, and two edges are
    unordered both ways exactly when their IDs are the same string. *)
Theorem ByEdgeID_Less_strict_order (a : list Edge) (i j k : Z) :
  (ByEdgeID_Less a i j = None
   ↔ ¬ (0 ≤ i < ByEdgeID_Len a)%Z ∨ ¬ (0 ≤ j < ByEdgeID_Len a)%Z) ∧
  ByEdgeID_Less a i i ≠ Some true ∧
  (ByEdgeID_Less a i j = Some true → ByEdgeID_Less a j k = Some true →
   ByEdgeID_Less a i k = Some true) ∧
  (ByEdgeID_Less a i j = Some false ∧ ByEdgeID_Less a j i = Some false
   ↔ ∃ x y, index a i = Some x ∧ index a j = Some y ∧ Edge_ID x = Edge_ID y).
Proof.
  apply (keyed_Less_strict_order (λ x y, (strings_Compare x y <? 0)%Z) Edge_ID).
  - intros x. exact (proj1 (strings_Compare_lt_strict x x x)).
  - intros x y z. exact (proj1 (proj2 (strings_Compare_lt_strict x y z))).
  - intros x y. exact (proj2 (proj2 (strings_Compare_lt_strict x y y))).
Qed.

(** X2: ByHash.Less panics exactly when an index is out of range, and on
    indices in range it is a strict order of the edges by hash, byte by
    byte: irreflexive, transitive, and two edges are unordered both ways
    exactly when their hashes are the same bytes. *)
Theorem ByHash_Less_strict_order (a : list Edge) (i j k : Z) :
  (ByHash_Less a i j = None
   ↔ ¬ (0 ≤ i < ByHash_Len a)%Z ∨ ¬ (0 ≤ j < ByHash_Len a)%Z) ∧
  ByHash_Less a i i ≠ Some true ∧
  (ByHash_Less a i j = Some true → ByHash_Less a j k = Some true →
   ByHash_Less a i k = Some true) ∧
  (ByHash_Less a i j = Some false ∧ ByHash_Less a j i = Some false
   ↔ ∃ x y, index a i = Some x ∧ index a j = Some y ∧ Edge_Hash x = Edge_Hash y).
Proof.
  apply (keyed_Less_strict_order (λ x y, (bytes_Compare x y <? 0)%Z) Edge_Hash).
  - intros x. exact (proj1 (lexCompare_lt_strict Byte.to_N Byte_to_N_inj x x x)).
  - intros x y z.
    exact (proj1 (proj2 (lexCompare_lt_strict Byte.to_N Byte_to_N_inj x y z))).
  - intros x y.
    exact (proj2 (proj2 (lexCompare_lt_strict Byte.to_N Byte_to_N_inj x y y))).
Qed.

(** X3: Swap (of ByEdgeID and of ByHash alike) panics exactly when an index
    is out of range; otherwise it exchanges the two elements and leaves
    every other position alone, so the result has the same length, is a
    permutation of the slice, and swapping again restores it. *)
Theorem Swap_exchanges (a : list Edge) (i j : Z) :
  ByEdgeID_Swap a i j = ByHash_Swap a i j ∧
  (ByEdgeID_Swap a i j = None
   ↔ ¬ (0 ≤ i < ByEdgeID_Len a)%Z ∨ ¬ (0 ≤ j < ByEdgeID_Len a)%Z) ∧
  (∀ a', ByEdgeID_Swap a i j = Some a' →
     ByEdgeID_Len a' = ByEdgeID_Len a ∧
     index a' i = index a j ∧ index a' j = index a i ∧
     (∀ k, k ≠ i → k ≠ j → index a' k = index a k) ∧
     a' ≡ₚ a ∧
     ByEdgeID_Swap a' i j = Some a).
Proof.
  split; [done|]. unfold ByEdgeID_Swap, ByEdgeID_Len, edges_Swap.
  rewrite <- !index_None. split.
  { destruct (index a i), (index a j); naive_solver. }
  intros a'. destruct (index a j) as [y|] eqn:Hj; [|done].
  destruct (index a i) as [x|] eqn:Hi; [|done]. intros [= <-].
  assert (Hir : (0 ≤ i < Z.of_nat (length a))%Z) by (apply index_Some; eauto).
  assert (Hjr : (0 ≤ j < Z.of_nat (length a))%Z) by (apply index_Some; eauto).
  unfold index in *.
  destruct (Z.ltb_spec i 0) as [?|_]; [lia|].
  destruct (Z.ltb_spec j 0) as [?|_]; [lia|].
  set (ni := Z.to_nat i) in *. set (nj := Z.to_nat j) in *.
  assert (Hli : (ni < length a)%nat) by lia.
  assert (Hlj : (nj < length a)%nat) by lia.
  assert (Hi' : <[nj:=x]> (<[ni:=y]> a) !! ni = Some y).
  { destruct (decide (ni = nj)) as [Heq|Hne].
    - rewrite Heq in *. rewrite list_lookup_insert_eq by (rewrite length_insert; lia).
      congruence.
    - rewrite list_lookup_insert_ne by done. by rewrite list_lookup_insert_eq. }
  assert (Hj' : <[nj:=x]> (<[ni:=y]> a) !! nj = Some x).
  { rewrite list_lookup_insert_eq by (rewrite length_insert; lia). done. }
  split; [by rewrite !length_insert|].
  split; [done|]. split; [done|]. split.
  { intros k Hki Hkj. destruct (Z.ltb_spec k 0) as [?|?]; [done|].
    rewrite !list_lookup_insert_ne by (subst ni nj; lia). done. }
  split; [by apply Permutation_insert_swap|].
  rewrite Hi', Hj'. f_equal.
  apply list_eq. intros n.
  destruct (decide (n = nj)) as [->|Hnj].
  { rewrite list_lookup_insert_eq by (rewrite !length_insert; lia). done. }
  rewrite list_lookup_insert_ne by done.
  destruct (decide (n = ni)) as [->|Hni].
  { rewrite list_lookup_insert_eq by (rewrite !length_insert; lia). done. }
  by rewrite !list_lookup_insert_ne.
Qed.

(** ** Graph addressing: which ids share a subject *)

Lemma string_app_length (s t : string) :
  String.length (s +:+ t) = String.length s + String.length t.
Proof.
  induction s as [|c s IH]; [done|].
  change (S (String.length (s +:+ t)) = S (String.length s + String.length t)).
  by rewrite IH.
Qed.

Lemma string_app_inj_r (s s' t : string) : s +:+ t = s' +:+ t → s = s'.
Proof.
  revert s'. induction s as [|c s IH]; intros [|c' s'] Heq; [done| | |].
  - change (t = String c' (s' +:+ t)) in Heq.
    apply (f_equal String.length) in Heq.
    cbn in Heq. rewrite string_app_length in Heq. lia.
  - change (String c (s +:+ t) = t) in Heq.
    apply (f_equal String.length) in Heq.
    cbn in Heq. rewrite string_app_length in Heq. lia.
  - change (String c (s +:+ t) = String c' (s' +:+ t)) in Heq.
    injection Heq as -> Heq. f_equal. by apply IH.
Qed.

Lemma countDots_app (s t : string) : countDots (s +:+ t) = countDots s + countDots t.
Proof.
  induction s as [|c s IH]; [done|].
  change (countDots (String c (s +:+ t)) = countDots (String c s) + countDots t).
  cbn. rewrite IH. lia.
Qed.

Lemma SubjectNodePoints_eq (n : string) :
  SubjectNodePoints n = "node." +:+ n +:+ ".points".
Proof. reflexivity. Qed.

Lemma SubjectEdgePoints_eq (n p : string) :
  SubjectEdgePoints n p = "node." +:+ n +:+ "." +:+ p +:+ ".points".
Proof. reflexivity. Qed.

Lemma SubjectNodeHRPoints_eq (n : string) : SubjectNodeHRPoints n = "phr." +:+ n.
Proof. unfold SubjectNodeHRPoints; cbn. by rewrite string_app_empty_r. Qed.

(** Two strings without a dot, each followed by a dot and a rest, are
    equal only part by part. *)
Lemma dot_free_split (n n' r r' : string) :
  countDots n = 0 → countDots n' = 0 →
  n +:+ "." +:+ r = n' +:+ "." +:+ r' → n = n' ∧ r = r'.
Proof.
  revert n'. induction n as [|c n IH]; intros [|c' n'] Hn Hn' Heq.
  - change (String "." r = String "." r') in Heq. by injection Heq as ->.
  - change (String "." r = String c' (n' +:+ "." +:+ r')) in Heq.
    injection Heq as <- _. cbn in Hn'. done.
  - change (String c (n +:+ "." +:+ r) = String "." r') in Heq.
    injection Heq as -> _. cbn in Hn. done.
  - change (String c (n +:+ "." +:+ r) = String c' (n' +:+ "." +:+ r')) in Heq.
    injection Heq as -> Heq. cbn in Hn, Hn'.
    destruct (Ascii.eqb c' "."); [done|].
    destruct (IH n' Hn Hn' Heq) as [-> ->]. done.
Qed.

(** X4: Distinct node ids never share a node-points subject or a high-rate
    subject. *)
Theorem node_subjects_injective (n n' : string) :
  (SubjectNodePoints n = SubjectNodePoints n' ↔ n = n') ∧
  (SubjectNodeHRPoints n = SubjectNodeHRPoints n' ↔ n = n').
Proof.
  rewrite !SubjectNodePoints_eq, !SubjectNodeHRPoints_eq. split.
  - split; [|by intros ->]. intros Heq%(inj (String.app "node.")).
    by apply string_app_inj_r in Heq.
  - split; [|by intros ->]. by intros Heq%(inj (String.app "phr.")).
Qed.

(** X5: For node ids without a dot, the edge-points subject determines both
    the node id and the parent id. *)
Theorem edge_subject_injective (n n' p p' : string) :
  countDots n = 0 → countDots n' = 0 →
  SubjectEdgePoints n p = SubjectEdgePoints n' p' → n = n' ∧ p = p'.
Proof.
  intros Hn Hn'. rewrite !SubjectEdgePoints_eq.
  intros Heq%(inj (String.app "node.")).
  destruct (dot_free_split n n' _ _ Hn Hn' Heq) as [-> Hp].
  by apply string_app_inj_r in Hp as ->.
Qed.

Lemma edge_subject_injective_witness :
  countDots "n1" = 0 ∧ countDots "n1" = 0 ∧
  SubjectEdgePoints "n1" "root" = SubjectEdgePoints "n1" "root" ∧
  "n1" = "n1" ∧ "root" = "root".
Proof.
  split; [reflexivity|]. split; [reflexivity|]. split; [reflexivity|].
  exact (edge_subject_injective "n1" "n1" "root" "root" eq_refl eq_refl eq_refl).
Defined.

(** With a dot in a node id the subject no longer tells the ids apart. *)
Example edge_subject_collision :
  SubjectEdgePoints "a.b" "c" = SubjectEdgePoints "a" "b.c".
Proof. vm_compute. reflexivity. Qed.

(** X6: A node-points subject has two dots more than the node id and an
    edge-points subject three more than its two ids together, so the
    node-points subject of an id without a dot (three tokens, as the
    wildcard [node.*.points]) is the edge-points subject of no pair of
    ids. *)
Theorem subject_tokens (n n' p : string) :
  countDots (SubjectNodePoints n) = 2 + countDots n ∧
  countDots (SubjectEdgePoints n' p) = 3 + countDots n' + countDots p ∧
  countDots SubjectNodeAllPoints = 2 ∧
  countDots SubjectEdgeAllPoints = 3 ∧
  (countDots n = 0 → SubjectNodePoints n ≠ SubjectEdgePoints n' p).
Proof.
  assert (Hn : countDots (SubjectNodePoints n) = 2 + countDots n).
  { rewrite SubjectNodePoints_eq, !countDots_app. cbn. lia. }
  assert (He : countDots (SubjectEdgePoints n' p) = 3 + countDots n' + countDots p).
  { rewrite SubjectEdgePoints_eq, !countDots_app. cbn. lia. }
  repeat split; try done.
  intros Hfree Heq. rewrite Heq in Hn. lia.
Qed.

(** ** Point transport: the calls made on the connection *)

(** X7: Without acknowledgement, [SendPoints] returns an error exactly when
    the stamped batch fails to serialise or the publish fails, and that
    error; it never issues a request. *)
Theorem SendPoints_noack_error_iff `{DataPkg} `{Conn} `{Clock}
    (tick : nat) (subject : string) (points : Points) :
  (∀ e, send_err (SendPoints tick subject points false) = Some e ↔
     Points_ToPb (stampPoints tick points).1 = inr e ∨
     (∃ data, Points_ToPb (stampPoints tick points).1 = inl data ∧
              nc_Publish subject data = Some e)) ∧
  (send_err (SendPoints tick subject points false) = None ↔
     ∃ data, Points_ToPb (stampPoints tick points).1 = inl data ∧
             nc_Publish subject data = None) ∧
  (∀ c, In c (send_calls (SendPoints tick subject points false)) →
     ∃ data, c = Published subject data).
Proof.
  rewrite SendPoints_unfold. cbn zeta.
  destruct (Points_ToPb (stampPoints tick points).1) as [data|err] eqn:Hpb; cbn.
  - split; [|split].
    + intros e. split; [intros He; right; by exists data|].
      intros [?|(d & [= <-] & Hp)]; done.
    + split; [intros Hn; by exists data|]. by intros (d & [= <-] & Hp).
    + intros c [<-|[]]. by exists data.
  - split; [|split].
    + intros e. split; [intros [= <-]; by left|].
      intros [[= <-]|(d & ? & _)]; done.
    + split; [done|]. by intros (d & ? & _).
    + intros c [].
Qed.

(** X8: [SendPoints] makes at most one call on the connection, on the
    subject it was given, a request when [ack] is set and a publish
    otherwise; it makes none exactly when serialisation fails. *)
Theorem SendPoints_one_call `{DataPkg} `{Conn} `{Clock}
    (tick : nat) (subject : string) (points : Points) (ack : bool) :
  length (send_calls (SendPoints tick subject points ack)) ≤ 1 ∧
  (send_calls (SendPoints tick subject points ack) = []
   ↔ ∃ e, Points_ToPb (stampPoints tick points).1 = inr e) ∧
  (∀ c, In c (send_calls (SendPoints tick subject points ack)) →
     busCall_subject c = subject ∧
     c = if ack then Requested subject (busCall_data c) time_Second
         else Published subject (busCall_data c)).
Proof.
  rewrite SendPoints_unfold. cbn zeta.
  destruct (Points_ToPb (stampPoints tick points).1) as [data|err] eqn:Hpb.
  - destruct ack; [destruct (nc_Request subject data time_Second)|]; cbn;
      (split; [lia|]); (split; [split; [done|by intros [? ?]]|]);
      by intros c [<-|[]].
  - cbn. split; [lia|]. split; [split; eauto|]. intros c [].
Qed.

Lemma SendPoints_points `{DataPkg} `{Conn} `{Clock}
    (tick : nat) (subject : string) (points : Points) (ack : bool) :
  send_points (SendPoints tick subject points ack) = (stampPoints tick points).1 ∧
  send_tick (SendPoints tick subject points ack) = (stampPoints tick points).2.
Proof.
  rewrite SendPoints_unfold; cbn zeta.
  destruct (Points_ToPb _); [|done]. destruct ack; [|done].
  by destruct (nc_Request _ _ _).
Qed.

Lemma stampPoints_nonzero `{Clock} (points : Points) (tick : nat) :
  clock_never_zero →
  Forall (λ p, Time_IsZero (Point_Time p) = false) (stampPoints tick points).1.
Proof.
  intros Hclock. revert tick.
  induction points as [|p rest IH]; intros tick; cbn; [constructor|].
  destruct (Time_IsZero (Point_Time p)) eqn:Hz.
  - specialize (IH (S tick)). destruct (stampPoints (S tick) rest). cbn in *.
    constructor; [apply Hclock|done].
  - specialize (IH tick). destruct (stampPoints tick rest). cbn in *.
    by constructor.
Qed.

Lemma stampPoints_fixed `{Clock} (points : Points) (tick : nat) :
  Forall (λ p, Time_IsZero (Point_Time p) = false) points →
  stampPoints tick points = (points, tick).
Proof.
  induction 1 as [|p rest Hp _ IH]; cbn; [done|]. by rewrite Hp, IH.
Qed.

(** X9: With a clock that never reads the zero instant, the batch
    [SendPoints] leaves in the caller's slice has no zero-time point, and
    sending that batch again (on any subject, at any later time) reads
    the clock no more and changes no point. *)
Theorem SendPoints_stamps_once `{DataPkg} `{Conn} `{Clock}
    (tick tick' : nat) (subject subject' : string) (points : Points) (ack ack' : bool) :
  clock_never_zero →
  Forall (λ p, Time_IsZero (Point_Time p) = false)
         (send_points (SendPoints tick subject points ack)) ∧
  send_points (SendPoints tick' subject'
                 (send_points (SendPoints tick subject points ack)) ack')
  = send_points (SendPoints tick subject points ack) ∧
  send_tick (SendPoints tick' subject'
               (send_points (SendPoints tick subject points ack)) ack') = tick'.
Proof.
  intros Hclock.
  destruct (SendPoints_points tick subject points ack) as [Hp _].
  pose proof (stampPoints_nonzero points tick Hclock) as Hnz.
  rewrite Hp. split; [done|].
  destruct (SendPoints_points tick' subject' (stampPoints tick points).1 ack')
    as [-> ->].
  by rewrite (stampPoints_fixed _ tick' Hnz).
Qed.

Lemma clock_demo_never_zero : @clock_never_zero clock_demo.
Proof.
  intros k. unfold Time_IsZero. cbn [time_Now clock_demo sec nsec].
  apply andb_false_intro1, Z.eqb_neq. lia.
Defined.

Lemma SendPoints_stamps_once_witness :
  @clock_never_zero clock_demo ∧
  send_points (@SendPoints data_demo conn_ok clock_demo 7 "node.n2.points"
                 (send_points (@SendPoints data_demo conn_ok clock_demo 0 "node.n1.points"
                                 [pt "value" 1%float (mkTime 0 0)] true)) false)
  = send_points (@SendPoints data_demo conn_ok clock_demo 0 "node.n1.points"
                   [pt "value" 1%float (mkTime 0 0)] true).
Proof.
  split; [exact clock_demo_never_zero|].
  exact (proj1 (proj2 (@SendPoints_stamps_once data_demo conn_ok clock_demo
           0 7 "node.n1.points" "node.n2.points" [pt "value" 1%float (mkTime 0 0)]
           true false clock_demo_never_zero))).
Defined.

(** Every call [SendPoints] makes on the connection is on the subject it
    was given. *)
Lemma SendPoints_calls_subject `{DataPkg} `{Conn} `{Clock}
    (tick : nat) (subject : string) (points : Points) (ack : bool) (c : busCall) :
  In c (send_calls (SendPoints tick subject points ack)) → busCall_subject c = subject.
Proof.
  rewrite SendPoints_unfold. cbn zeta.
  destruct (Points_ToPb (stampPoints tick points).1) as [data|err]; [|intros []].
  destruct ack; [destruct (nc_Request subject data time_Second)|];
    by intros [<-|[]].
Qed.


(** ** Subscriptions *)

(** X11: Over the messages a subscription receives, the callback is run on
    exactly those that decode, in the order received, with the decoded
    points; the others leave the subscriber untouched. *)
Theorem Subscribe_delivers_decodable `{DataPkg} {S : Type}
    (callback : Points → S → S) (msgs : list (list byte)) (st : S) :
  fold_left (λ st msg, Subscribe_onMsg callback msg st) msgs st
  = fold_left (λ st points, callback points st)
      (omap (λ msg, match PbDecodePoints msg with
                    | inl points => Some points
                    | inr _ => None
                    end) msgs) st.
Proof.
  revert st. induction msgs as [|msg rest IH]; intros st; [done|].
  cbn. rewrite IH. unfold Subscribe_onMsg.
  by destruct (PbDecodePoints msg).
Qed.

(** X13: The subject [SubscribeEdgePoints] hands to [nc.Subscribe] for
    a node and a parent is the subject of the call [SendEdgePoints] makes
    for the same two ids exactly when the parent id is not empty: with an
    empty parent id the sender uses the parent [none] and the subscriber
    asks for the subject with an empty parent token. [SubscribeEdgePoints]
    returns the error of [nc.Subscribe], and a subscription exists
    exactly when there is none. *)
Theorem edge_send_subscribe_subjects `{DataPkg} `{Conn} `{Clock} `{ConnSubscribe}
    {S : Type} (tick : nat) (id parent : string) (points : Points) (ack : bool)
    (callback : Points → S → S) (c : busCall) :
  In c (send_calls (SendEdgePoints tick id parent points ack)) →
  (busCall_subject c = sub_subject (SubscribeEdgePoints id parent callback)
   ↔ parent ≠ "") ∧
  sub_subject (SubscribeEdgePoints id parent callback)
  = "node." +:+ id +:+ "." +:+ parent +:+ ".points" ∧
  sub_err (SubscribeEdgePoints id parent callback)
  = nc_Subscribe ("node." +:+ id +:+ "." +:+ parent +:+ ".points") ∧
  (sub_live (SubscribeEdgePoints id parent callback) = true
   ↔ nc_Subscribe ("node." +:+ id +:+ "." +:+ parent +:+ ".points") = None).
Proof.
  intros Hc. unfold SendEdgePoints in Hc.
  rewrite (SendPoints_calls_subject tick _ points ack c Hc).
  assert (Hsub : sub_subject (SubscribeEdgePoints id parent callback)
                 = SubjectEdgePoints id parent).
  { unfold SubscribeEdgePoints. cbn zeta. by destruct (nc_Subscribe _). }
  rewrite Hsub, !SubjectEdgePoints_eq. split; [|split; [done|]].
  - destruct (String.eqb_spec parent "") as [->|Hne]; [|done].
    split; [|done]. intros Heq%(inj (String.app "node.")).
    apply (inj (String.app id)) in Heq. discriminate Heq.
  - unfold SubscribeEdgePoints. cbn zeta. rewrite SubjectEdgePoints_eq.
    destruct (nc_Subscribe _); split; done.
Qed.

Lemma edge_send_subscribe_subjects_witness :
  In (Published "node.n1.none.points" [x01])
     (send_calls (@SendEdgePoints data_demo conn_ok clock_demo 0 "n1" ""
                    [pt "value" 1%float (mkTime 0 0)] false)) ∧
  ("node.n1.none.points"
   = sub_subject (@SubscribeEdgePoints data_demo subscribe_demo unit "n1" "" (λ _ u, u))
   ↔ "" ≠ "") ∧
  sub_err (@SubscribeEdgePoints data_demo subscribe_demo unit "n1" "" (λ _ u, u))
  = Some (errors_New "nats: invalid subject").
Proof.
  split; [left; reflexivity|].
  destruct (@edge_send_subscribe_subjects data_demo conn_ok clock_demo subscribe_demo
              unit 0 "n1" "" [pt "value" 1%float (mkTime 0 0)] false (λ _ u, u)
              (Published "node.n1.none.points" [x01]) (or_introl eq_refl))
    as (Hiff & _ & Herr & _).
  split; [exact Hiff|]. rewrite Herr. reflexivity.
Defined.

(** ** The manager: instances launched, stopping, shutdown *)

Section manager_facts.
Context `{Store}.

(** The goroutines the first loop of a scan launches: one per key of the
    children that was not registered, each key once. *)
Lemma scan_create_started (children : list NodeEdge)
    (acc : gmap string clientState * list string) :
  ∃ new, (fold_left scan_create children acc).2 = acc.2 ++ new ∧
         NoDup new ∧
         ∀ key, key ∈ new ↔ key ∈ foundKeys children ∧ acc.1 !! key = None.
Proof.
  revert acc. induction children as [|n rest IH]; intros acc.
  - exists []. cbn. rewrite app_nil_r. split; [done|]. split; [constructor|].
    intros key. unfold foundKeys. cbn. set_solver.
  - cbn [fold_left]. destruct (IH (scan_create acc n)) as (new & Heq & Hnd & Hin).
    rewrite Heq. unfold scan_create in *.
    destruct (acc.1 !! mapKey n) as [c|] eqn:Hn.
    + exists new. split; [done|]. split; [done|].
      intros key. rewrite Hin. unfold foundKeys. cbn.
      rewrite elem_of_union, elem_of_singleton.
      split; [naive_solver|]. intros [[->|?] Hnone]; [congruence|done].
    + cbn in *. exists (mapKey n :: new). rewrite <- app_assoc. split; [done|].
      split.
      * constructor; [|done]. rewrite Hin, lookup_insert_eq. by intros [_ ?].
      * intros key. rewrite elem_of_cons, Hin. unfold foundKeys. cbn.
        rewrite elem_of_union, elem_of_singleton.
        destruct (decide (key = mapKey n)) as [->|Hne].
        -- rewrite lookup_insert_eq. naive_solver.
        -- rewrite lookup_insert_ne by done. naive_solver.
Qed.

Lemma scan_started_spec (t : nat) (m : Manager) (children : list NodeEdge) :
  GetNodeChildren t (root m) (nodeType m) false false = inl children →
  NoDup (scan_started (scan t m)) ∧
  ∀ key, key ∈ scan_started (scan t m)
         ↔ key ∈ foundKeys children ∧ clientStates m !! key = None.
Proof.
  intros Hq. unfold scan. rewrite Hq.
  destruct (Z.ltb_spec (Z.of_nat (length children)) 0) as [?|_]; [lia|]. cbn.
  destruct (scan_create_started children (clientStates m, [])) as (new & -> & ? & ?).
  done.
Qed.

(** Whatever the store answers, the keys registered after a scan are
    the keys registered before and the keys the scan launched. *)
Lemma scan_dom_started (t : nat) (m : Manager) :
  dom (clientStates (scan_m (scan t m)))
  = dom (clientStates m) ∪ list_to_set (scan_started (scan t m)).
Proof.
  destruct (GetNodeChildren t (root m) (nodeType m) false false)
    as [children|err] eqn:Hq.
  - rewrite (scan_dom t m children Hq).
    destruct (scan_started_spec t m children Hq) as [_ Hin].
    apply set_eq. intros key.
    rewrite !elem_of_union, elem_of_list_to_set, Hin, elem_of_dom, eq_None_not_Some.
    destruct (decide (is_Some (clientStates m !! key))); naive_solver.
  - unfold scan. rewrite Hq. cbn. set_solver.
Qed.

Lemma loop_scan_started (l : loop) :
  lp_started (loop_scan l).1
  = lp_started l ++ scan_started (scan (length (lp_queries l)) (lp_m l)) ∧
  lp_m (loop_scan l).1 = scan_m (scan (length (lp_queries l)) (lp_m l)) ∧
  lp_timer (loop_scan l).1 = lp_timer l.
Proof. done. Qed.

(** A loop that has returned receives nothing more. *)
Lemma run_returned (l : loop) (evs : list event) :
  lp_returned l = true → run l evs = l.
Proof.
  intros Hret. induction evs as [|ev rest IH]; [done|].
  cbn. unfold deliver, enabled. by rewrite Hret.
Qed.

(** A round of a stopping loop issues no query, launches nothing and
    leaves the loop stopping. *)
Lemma select_stopping (l : loop) (ev : event) :
  lp_stopping l = true →
  lp_stopping (select l ev) = true ∧
  lp_queries (select l ev) = lp_queries l ∧
  lp_started (select l ev) = lp_started l.
Proof.
  intros Hstop. destruct ev; unfold select, loop_scanClosure; cbn; rewrite ?Hstop.
  - by case_match.
  - done.
  - done.
  - done.
  - by case_match.
  - done.
Qed.

Lemma run_stopping (evs : list event) (l : loop) :
  lp_stopping l = true →
  lp_stopping (run l evs) = true ∧
  lp_queries (run l evs) = lp_queries l ∧
  lp_started (run l evs) = lp_started l.
Proof.
  revert l. induction evs as [|ev rest IH]; intros l Hstop; [done|].
  cbn. unfold deliver. destruct (enabled l ev); [|by apply IH].
  destruct (select_stopping l ev Hstop) as (Hs & Hq & Hst).
  destruct (IH _ Hs) as (? & ? & ?). repeat split; congruence.
Qed.

(** The completion of an instance, received by a stopping loop: the key
    is deleted, and [Start] returns exactly when no key is left. *)
Lemma select_delete_stopping (l : loop) (key : string) :
  lp_stopping l = true → lp_returned l = false →
  lp_stopping (select l (Recv_chDeleteCS key)) = true ∧
  clientStates (lp_m (select l (Recv_chDeleteCS key)))
  = delete key (clientStates (lp_m l)) ∧
  lp_returned (select l (Recv_chDeleteCS key))
  = bool_decide (delete key (clientStates (lp_m l)) = ∅).
Proof.
  intros Hstop Hret. unfold select. cbn. rewrite Hstop.
  destruct (size (delete key (clientStates (lp_m l)))) eqn:Hsz; cbn.
  - apply map_size_empty_iff in Hsz. rewrite Hsz.
    by rewrite bool_decide_eq_true_2.
  - rewrite Hret, bool_decide_eq_false_2; [done|].
    apply map_size_non_empty_iff. lia.
Qed.

(** The grace timer is armed only by a stop, for five seconds. *)
Lemma select_timer (l : loop) (ev : event) :
  (lp_timer l = None ∨ (lp_timer l = Some (5 * time_Second)%Z ∧ lp_stopping l = true)) →
  lp_timer (select l ev) = None ∨
  (lp_timer (select l ev) = Some (5 * time_Second)%Z ∧ lp_stopping (select l ev) = true).
Proof.
  intros Hinv.
  assert (Hkeep : ∀ l', lp_timer l' = lp_timer l →
            (lp_stopping l = true → lp_stopping l' = true) →
            lp_timer l' = None ∨
            (lp_timer l' = Some (5 * time_Second)%Z ∧ lp_stopping l' = true)).
  { intros l' -> Hs. destruct Hinv as [?|[? ?]]; [by left|right; auto]. }
  destruct ev; unfold select, loop_scanClosure.
  - case_match; [by right|by apply Hkeep].
  - by apply Hkeep.
  - case_match; by apply Hkeep.
  - case_match; by apply Hkeep.
  - case_match; [case_match|]; by apply Hkeep.
  - by apply Hkeep.
Qed.

(** Without closures on [chAction], every registered key has had its
    goroutine launched. *)
Lemma select_registered_started (l : loop) (ev : event) :
  event_is_action ev = false →
  dom (clientStates (lp_m l)) ⊆ list_to_set (lp_started l) →
  dom (clientStates (lp_m (select l ev))) ⊆ list_to_set (lp_started (select l ev)).
Proof.
  intros Hev Hinv.
  assert (Hscan : ∀ l', dom (clientStates (lp_m l')) ⊆ list_to_set (lp_started l') →
            dom (clientStates (lp_m (loop_scan l').1))
            ⊆ list_to_set (lp_started (loop_scan l').1)).
  { intros l' Hl'. destruct (loop_scan_started l') as (-> & -> & _).
    rewrite scan_dom_started, list_to_set_app_L. set_solver. }
  destruct ev; try done; unfold select, loop_scanClosure.
  - case_match; cbn; [|done]. by rewrite dom_fmap_L.
  - case_match; [done|]. by apply Hscan.
  - case_match; [done|]. by apply Hscan.
  - assert (Hdel : dom (delete key (clientStates (lp_m l)))
                   ⊆ list_to_set (lp_started l)).
    { rewrite dom_delete_L. set_solver. }
    case_match.
    + case_match; done.
    + by apply Hscan.
Qed.

End manager_facts.

(** X14: A successful scan launches one goroutine for each key of the result
    that was not registered, never two for a key, and none for a key
    already registered; each key launched is registered with a fresh
    instance, without stop signal, for the first child of that key. *)
Theorem scan_launches_new_keys_once `{Store}
    (t : nat) (m : Manager) (children : list NodeEdge) :
  GetNodeChildren t (root m) (nodeType m) false false = inl children →
  NoDup (scan_started (scan t m)) ∧
  (∀ key, key ∈ scan_started (scan t m)
          ↔ key ∈ foundKeys children ∧ clientStates m !! key = None) ∧
  (∀ key, key ∈ scan_started (scan t m) →
          ∃ n, firstChild key children = Some n ∧
               clientStates (scan_m (scan t m)) !! key = Some (newClientState n)).
Proof.
  intros Hq. destruct (scan_started_spec t m children Hq) as [Hnd Hin].
  split; [done|]. split; [done|].
  intros key [Hfound Hnone]%Hin.
  apply firstChild_is_Some in Hfound as [n Hn]. exists n. split; [done|].
  by rewrite (scan_lookup t m children key Hq), Hnone, Hn.
Qed.

Lemma scan_launches_new_keys_once_witness :
  @GetNodeChildren store_b1 0 "root" "bus" false false = inl [node_b1] ∧
  NoDup (scan_started (@scan store_b1 0 manager_bus)) ∧
  ("root-b1" ∈ scan_started (@scan store_b1 0 manager_bus)
   ↔ "root-b1" ∈ @foundKeys store_b1 [node_b1] ∧
     clientStates manager_bus !! "root-b1" = None).
Proof.
  split; [reflexivity|].
  destruct (@scan_launches_new_keys_once store_b1 0 manager_bus [node_b1] eq_refl)
    as (Hnd & Hin & _).
  split; [exact Hnd|exact (Hin "root-b1")].
Defined.

(** X15: Whatever the store answers, the keys registered after a scan are the
    keys registered before together with the keys whose goroutine the
    scan launched; when the query fails the scan registers, launches and
    stops nothing and returns the error of the query. *)
Theorem scan_registers_what_it_launches `{Store} (t : nat) (m : Manager) :
  dom (clientStates (scan_m (scan t m)))
  = dom (clientStates m) ∪ list_to_set (scan_started (scan t m)) ∧
  (∀ err, GetNodeChildren t (root m) (nodeType m) false false = inr err →
          scan_m (scan t m) = m ∧ scan_started (scan t m) = [] ∧
          scan_err (scan t m) = Some err).
Proof.
  split; [apply scan_dom_started|].
  intros err Hq. unfold scan. by rewrite Hq.
Qed.

(** X16: Once the loop has received a stop, no scan runs and no instance is
    launched any more, whatever the loop receives afterwards: change
    notifications, the periodic timer and completions included. *)
Theorem no_scan_after_stop `{Store}
    (e : option error) (l l1 : loop) (evs : list event) :
  Manager_Stop e l = Some l1 →
  lp_stopping (run l1 evs) = true ∧
  lp_queries (run l1 evs) = lp_queries l ∧
  lp_started (run l1 evs) = lp_started l.
Proof.
  unfold Manager_Stop, deliver. destruct (enabled l Recv_stop); [|done].
  intros Heq. assert (Hl1 : l1 = select l Recv_stop) by congruence.
  clear Heq. subst l1.
  assert (Hs : lp_stopping (select l Recv_stop) = true).
  { unfold select. by case_match. }
  destruct (run_stopping evs _ Hs) as (Hst & Hq & Hla).
  rewrite Hst, Hq, Hla. split; [done|]. unfold select. by case_match.
Qed.

Lemma no_scan_after_stop_witness :
  @Manager_Stop store_b1 None (@started store_b1) = Some (@stopped store_b1) ∧
  lp_queries (@run store_b1 (@stopped store_b1)
                   [Recv_chScan; Recv_timeAfter; Recv_chDeleteCS "root-b2"])
  = lp_queries (@started store_b1).
Proof.
  split; [reflexivity|].
  exact (proj1 (proj2 (@no_scan_after_stop store_b1 None (@started store_b1)
           (@stopped store_b1)
           [Recv_chScan; Recv_timeAfter; Recv_chDeleteCS "root-b2"] eq_refl))).
Defined.

(** X17: A stopping loop returns once the completion of every registered
    instance has been received: after the completions of a list of keys
    that covers the registered keys, in any order and with any other key
    among them, [Start] has returned. *)
Theorem shutdown_completes `{Store} (l : loop) (keys : list string) :
  lp_stopping l = true → lp_returned l = false → keys ≠ [] →
  dom (clientStates (lp_m l)) ⊆ list_to_set keys →
  lp_returned (run l (Recv_chDeleteCS <$> keys)) = true.
Proof.
  revert l. induction keys as [|key rest IH]; intros l Hstop Hret Hne Hdom; [done|].
  cbn. unfold deliver, enabled. rewrite Hret. cbn [negb andb].
  destruct (select_delete_stopping l key Hstop Hret) as (Hstop' & Hcs & Hret').
  destruct (decide (delete key (clientStates (lp_m l)) = ∅)) as [Hempty|Hleft].
  - rewrite bool_decide_eq_true_2 in Hret' by done. by rewrite run_returned.
  - rewrite bool_decide_eq_false_2 in Hret' by done.
    assert (Hdom' : dom (delete key (clientStates (lp_m l))) ⊆ list_to_set rest).
    { rewrite dom_delete_L. set_solver. }
    apply IH; [done|done| |by rewrite Hcs].
    intros ->. apply Hleft. apply dom_empty_iff_L. set_solver.
Qed.

Lemma shutdown_completes_witness :
  lp_stopping (@stopped store_b1) = true ∧
  lp_returned (@stopped store_b1) = false ∧
  lp_returned (@run store_b1 (@stopped store_b1)
                    (Recv_chDeleteCS <$> ["root-b2"; "root-b1"])) = true.
Proof.
  split; [reflexivity|]. split; [reflexivity|].
  apply (@shutdown_completes store_b1 (@stopped store_b1) ["root-b2"; "root-b1"]);
    [reflexivity|reflexivity|discriminate|].
  apply (bool_decide_eq_true_1
           (dom (clientStates (lp_m (@stopped store_b1)))
            ⊆ (list_to_set ["root-b2"; "root-b1"] : gset string))).
  vm_compute. reflexivity.
Defined.

(** X18: An instance that ends on its own while the manager is not stopping
    and whose child the store still returns is started again at once:
    its key is registered with a fresh instance for that child, and a
    goroutine is launched for it. *)
Theorem restart_on_completion `{Store}
    (l : loop) (key : string) (children : list NodeEdge) (n : NodeEdge) :
  lp_stopping l = false →
  GetNodeChildren (length (lp_queries l)) (root (lp_m l)) (nodeType (lp_m l)) false false
  = inl children →
  firstChild key children = Some n →
  clientStates (lp_m (select l (Recv_chDeleteCS key))) !! key = Some (newClientState n) ∧
  ∃ new, lp_started (select l (Recv_chDeleteCS key)) = lp_started l ++ new ∧ key ∈ new.
Proof.
  intros Hstop Hq Hn. unfold select, loop_scanClosure. cbn. rewrite Hstop. cbn.
  set (m := Manager_setClientStates (lp_m l) (delete key (clientStates (lp_m l)))).
  assert (Hnone : clientStates m !! key = None) by apply lookup_delete_eq.
  split.
  - by rewrite (scan_lookup (length (lp_queries l)) m children key Hq), Hnone, Hn.
  - eexists. split; [reflexivity|].
    apply (scan_started_spec (length (lp_queries l)) m children Hq).
    split; [|done]. apply firstChild_is_Some. by rewrite Hn.
Qed.

Lemma restart_on_completion_witness :
  lp_stopping (@started store_b1) = false ∧
  clientStates (lp_m (@select store_b1 (@started store_b1) (Recv_chDeleteCS "root-b1")))
    !! "root-b1" = Some (newClientState node_b1).
Proof.
  split; [reflexivity|].
  exact (proj1 (@restart_on_completion store_b1 (@started store_b1) "root-b1"
                  [node_b1] node_b1 eq_refl eq_refl eq_refl)).
Defined.

Lemma run_registered_started `{Store} (evs : list event) (l : loop) :
  Forall (λ ev, event_is_action ev = false) evs →
  dom (clientStates (lp_m l)) ⊆ list_to_set (lp_started l) →
  dom (clientStates (lp_m (run l evs))) ⊆ list_to_set (lp_started (run l evs)).
Proof.
  intros Hevs. revert l. induction Hevs as [|ev rest Hev _ IH]; intros l Hinv; [done|].
  cbn. unfold deliver. destruct (enabled l ev); [|by apply IH].
  apply IH. by apply select_registered_started.
Qed.

(** X19: From [Start] on a manager without instances and as long as no
    closure arrives on [chAction], no key is registered without a
    goroutine having been launched for it. *)
Theorem registered_instances_were_launched `{Store}
    (m : Manager) (l0 : loop) (evs : list event) :
  clientStates m = ∅ →
  Start_enter None m = inl l0 →
  Forall (λ ev, event_is_action ev = false) evs →
  dom (clientStates (lp_m (run l0 evs))) ⊆ list_to_set (lp_started (run l0 evs)).
Proof.
  intros Hempty Hstart Hevs. apply run_registered_started; [done|].
  unfold Start_enter in Hstart.
  set (l := mkLoop m None false None (Some "up.none.>") false [] []) in *.
  destruct (loop_scan_started l) as (Hst & Hm & _).
  destruct (loop_scan l) as [l' err]. injection Hstart as <-. cbn in *.
  rewrite Hst, Hm, scan_dom_started, Hempty. set_solver.
Qed.

Lemma registered_instances_were_launched_witness :
  clientStates manager_bus = ∅ ∧
  @Start_enter store_b1 None manager_bus = inl (@started store_b1) ∧
  dom (clientStates (lp_m (@run store_b1 (@started store_b1)
                             [Recv_chScan; Recv_chDeleteCS "root-b1"])))
  ⊆ list_to_set (lp_started (@run store_b1 (@started store_b1)
                               [Recv_chScan; Recv_chDeleteCS "root-b1"])).
Proof.
  split; [reflexivity|]. split; [reflexivity|].
  apply (@registered_instances_were_launched store_b1 manager_bus);
    [reflexivity|reflexivity|].
  repeat constructor.
Defined.

Lemma run_timer `{Store} (evs : list event) (l : loop) :
  (lp_timer l = None ∨ (lp_timer l = Some (5 * time_Second)%Z ∧ lp_stopping l = true)) →
  lp_timer (run l evs) = None ∨
  (lp_timer (run l evs) = Some (5 * time_Second)%Z ∧ lp_stopping (run l evs) = true).
Proof.
  revert l. induction evs as [|ev rest IH]; intros l Hinv; [done|].
  cbn. unfold deliver. destruct (enabled l ev); [|by apply IH].
  apply IH. by apply select_timer.
Qed.

(** X20: Whatever the loop receives after [Start] entered it, the shutdown
    timer is armed only while the manager is stopping, and then for five
    seconds: it cannot end a manager that was not told to stop. *)
Theorem grace_timer_only_when_stopping `{Store}
    (m : Manager) (l0 : loop) (evs : list event) (d : Z) :
  Start_enter None m = inl l0 →
  lp_timer (run l0 evs) = Some d →
  d = 5000000000%Z ∧ lp_stopping (run l0 evs) = true.
Proof.
  intros Hstart Htimer.
  assert (Hinit : lp_timer l0 = None).
  { unfold Start_enter in Hstart.
    set (l := mkLoop m None false None (Some "up.none.>") false [] []) in *.
    destruct (loop_scan_started l) as (_ & _ & Ht).
    destruct (loop_scan l) as [l' err]. injection Hstart as <-. done. }
  destruct (run_timer evs l0 (or_introl Hinit)) as [Hnone|[Hsome Hstop]].
  - congruence.
  - rewrite Hsome in Htimer. injection Htimer as <-. done.
Qed.

Lemma grace_timer_only_when_stopping_witness :
  @Start_enter store_b1 None manager_bus = inl (@started store_b1) ∧
  lp_timer (@run store_b1 (@started store_b1) [Recv_chScan; Recv_stop])
  = Some 5000000000%Z ∧
  lp_stopping (@run store_b1 (@started store_b1) [Recv_chScan; Recv_stop]) = true.
Proof.
  split; [reflexivity|]. split; [reflexivity|].
  exact (proj2 (@grace_timer_only_when_stopping store_b1 manager_bus
                  (@started store_b1) [Recv_chScan; Recv_stop] 5000000000%Z
                  eq_refl eq_refl)).
Defined.

(** X21: Two types whose names differ only in the case of an ASCII first
    letter are given the same node type: [NewManager] returns the same
    manager for the name with the upper-case letter and for the name
    with that letter in lower case. *)
Theorem NewManager_first_letter_case (c : ascii) (rest rootID : string) :
  isUpperASCII c = true →
  NewManager (mkGoType (String c rest) false) rootID
  = NewManager (mkGoType (String (ascii_of_nat (nat_of_ascii c + 32)) rest) false) rootID.
Proof.
  intros Hup. unfold isUpperASCII in Hup.
  apply andb_true_iff in Hup as [Hlo%Nat.leb_le Hhi%Nat.leb_le].
  rewrite !NewManager_cases. cbn.
  unfold strings_ToLower_byte, isASCII, isUpperASCII.
  rewrite nat_ascii_embedding by lia.
  destruct (Nat.ltb_spec (nat_of_ascii c) 128) as [_|?]; [|lia].
  destruct (Nat.ltb_spec (nat_of_ascii c + 32) 128) as [_|?]; [|lia].
  destruct (Nat.leb_spec 65 (nat_of_ascii c)) as [_|?]; [|lia].
  destruct (Nat.leb_spec (nat_of_ascii c) 90) as [_|?]; [|lia].
  destruct (Nat.leb_spec 65 (nat_of_ascii c + 32)) as [_|?]; [|lia].
  destruct (Nat.leb_spec (nat_of_ascii c + 32) 90) as [?|_]; [lia|].
  done.
Qed.

Lemma NewManager_first_letter_case_witness :
  isUpperASCII "F" = true ∧
  NewManager (mkGoType "Foo" false) "root" = NewManager (mkGoType "foo" false) "root".
Proof.
  split; [reflexivity|].
  exact (NewManager_first_letter_case "F" "oo" "root" eq_refl).
Defined.

(** ** The registered keys: from a scan to the completion of an instance *)

Lemma scan_keeps_keys `{Store} (t : nat) (m : Manager) (key : string) :
  key ∈ dom (clientStates m) → key ∈ dom (clientStates (scan_m (scan t m))).
Proof. rewrite scan_dom_started. set_solver. Qed.

(** No round of the loop removes a key, but the receipt of that key's
    completion (and what a closure on [chAction] may do). *)
Lemma select_keeps_keys `{Store} (l : loop) (ev : event) (key : string) :
  event_is_action ev = false → ev ≠ Recv_chDeleteCS key →
  key ∈ dom (clientStates (lp_m l)) →
  key ∈ dom (clientStates (lp_m (select l ev))).
Proof.
  intros Hact Hev Hkey.
  assert (Hscan : ∀ l', key ∈ dom (clientStates (lp_m l')) →
            key ∈ dom (clientStates (lp_m (loop_scan l').1))).
  { intros l' Hl'. destruct (loop_scan_started l') as (_ & -> & _).
    by apply scan_keeps_keys. }
  destruct ev as [|f| | |key'|]; try done; unfold select, loop_scanClosure.
  - case_match; cbn; [|done]. by rewrite dom_fmap_L.
  - case_match; [done|]. by apply Hscan.
  - case_match; [done|]. by apply Hscan.
  - assert (Hne : key' ≠ key) by (intros ->; by apply Hev).
    assert (Hdel : key ∈ dom (delete key' (clientStates (lp_m l)))).
    { rewrite dom_delete_L. set_solver. }
    case_match.
    + case_match; done.
    + by apply Hscan.
Qed.

(** The completion of an instance, received by a stopping loop: its key
    is deleted and nothing else changes in the map. *)
Lemma chDeleteCS_stopping `{Store} (l : loop) (key : string) :
  lp_stopping l = true →
  clientStates (lp_m (select l (Recv_chDeleteCS key)))
  = delete key (clientStates (lp_m l)).
Proof.
  intros Hstop. unfold select. cbn. rewrite Hstop. by case_match.
Qed.

(** The completion of an instance, received by a loop that is not
    stopping and whose scan fails: its key is deleted. *)
Lemma chDeleteCS_scan_failed `{Store} (l : loop) (key : string) (err : error) :
  lp_stopping l = false →
  GetNodeChildren (length (lp_queries l)) (root (lp_m l)) (nodeType (lp_m l)) false false
  = inr err →
  clientStates (lp_m (select l (Recv_chDeleteCS key)))
  = delete key (clientStates (lp_m l)).
Proof.
  intros Hstop Hq. unfold select, loop_scanClosure. cbn. rewrite Hstop. cbn.
  set (m := Manager_setClientStates (lp_m l) (delete key (clientStates (lp_m l)))).
  by destruct (scan_query_failed (length (lp_queries l)) m err Hq) as [-> _].
Qed.

(** C1, as the code has it: after a scan whose query returned [children],
    the registered keys are the keys registered before together with the
    keys of [children]. Every returned child has exactly one instance
    under its key: the one already registered, left alone, or else a
    fresh one for the first child with that key. Every key registered
    before and absent from [children] is still registered, its instance
    having been sent one more stop signal, with a nil error. So the
    registered keys equal the keys of the scan result exactly when no key
    registered before is absent from it. A registered key stays
    registered through every round of the loop other than the receipt of
    its own completion (closures on [chAction] aside); the receipt of its
    completion deletes it: in a stopping loop, and in a loop whose scan
    then fails, the key is gone, and in a loop that is not stopping the
    scan that follows registers it again only if the store still returns
    a child with that key. *)
Theorem scan_registered_keys `{Store} (t : nat) (m : Manager) (children : list NodeEdge) :
  GetNodeChildren t (root m) (nodeType m) false false = inl children →
  dom (clientStates (scan_m (scan t m))) = dom (clientStates m) ∪ foundKeys children ∧
  (∀ key, clientStates (scan_m (scan t m)) !! key
          = match clientStates m !! key with
            | Some c => Some (if decide (key ∈ foundKeys children) then c
                              else clientState_stop None c)
            | None => newClientState <$> firstChild key children
            end) ∧
  (dom (clientStates (scan_m (scan t m))) = foundKeys children
   ↔ dom (clientStates m) ⊆ foundKeys children) ∧
  scan_err (scan t m) = None ∧
  (∀ l ev key, event_is_action ev = false → ev ≠ Recv_chDeleteCS key →
     key ∈ dom (clientStates (lp_m l)) →
     key ∈ dom (clientStates (lp_m (select l ev)))) ∧
  (∀ l key, lp_stopping l = true →
     clientStates (lp_m (select l (Recv_chDeleteCS key)))
     = delete key (clientStates (lp_m l))) ∧
  (∀ l key err, lp_stopping l = false →
     GetNodeChildren (length (lp_queries l)) (root (lp_m l)) (nodeType (lp_m l))
       false false = inr err →
     clientStates (lp_m (select l (Recv_chDeleteCS key)))
     = delete key (clientStates (lp_m l))) ∧
  (∀ l key children', lp_stopping l = false →
     GetNodeChildren (length (lp_queries l)) (root (lp_m l)) (nodeType (lp_m l))
       false false = inl children' →
     dom (clientStates (lp_m (select l (Recv_chDeleteCS key))))
     = (dom (clientStates (lp_m l)) ∖ {[key]}) ∪ foundKeys children').
Proof.
  intros Hq.
  assert (Hdom : dom (clientStates (scan_m (scan t m)))
                 = dom (clientStates m) ∪ foundKeys children).
  { apply set_eq. intros key.
    rewrite elem_of_union, !elem_of_dom, (scan_lookup t m children key Hq).
    rewrite <- firstChild_is_Some.
    destruct (clientStates m !! key) as [c|]; cbn.
    - split; eauto.
    - rewrite fmap_is_Some. split; [eauto|]. by intros [[? [=]]|?]. }
  split; [exact Hdom|]. split; [intros key; by apply scan_lookup|].
  split; [rewrite Hdom; set_solver|].
  split; [unfold scan; rewrite Hq; by destruct (Z.of_nat _ <? 0)%Z|].
  split; [intros l ev key; apply select_keeps_keys|].
  split; [intros l key; apply chDeleteCS_stopping|].
  split; [intros l key err; apply chDeleteCS_scan_failed|].
  intros l key children'. apply chDeleteCS_deregisters.
Qed.

Lemma scan_registered_keys_witness :
  @GetNodeChildren store_b1_then_none 1 "root" "bus" false false = inl [] ∧
  dom (clientStates (scan_m (@scan store_b1_then_none 1 (lp_m (@started store_b1_then_none)))))
  = dom (clientStates (lp_m (@started store_b1_then_none))) ∪ @foundKeys store_b1_then_none [] ∧
  clientStates (scan_m (@scan store_b1_then_none 1 (lp_m (@started store_b1_then_none))))
    !! "root-b1" = Some (mkClientState node_b1 [None]) ∧
  dom (clientStates (lp_m (@select store_b1_then_none
                             (@run store_b1_then_none (@started store_b1_then_none)
                                [Recv_chScan])
                             (Recv_chDeleteCS "root-b1"))))
  = (dom (clientStates (lp_m (@run store_b1_then_none (@started store_b1_then_none)
                                [Recv_chScan]))) ∖ {["root-b1"]})
    ∪ @foundKeys store_b1_then_none [].
Proof.
  split; [reflexivity|].
  destruct (@scan_registered_keys store_b1_then_none 1
              (lp_m (@started store_b1_then_none)) [] eq_refl)
    as (Hdom & Hlookup & _ & _ & _ & _ & _ & Hdel).
  split; [exact Hdom|]. split; [rewrite Hlookup; reflexivity|].
  exact (Hdel (@run store_b1_then_none (@started store_b1_then_none) [Recv_chScan])
              "root-b1" [] eq_refl eq_refl).
Defined.
